(** * LRUCache: a fixed-capacity cache with least-recently-used eviction

    A shallow embedding of the class template [LRUCache] of
    [src/LRUCache.h] (the variant with statistics counters) and of
    [src/unnamed/part_000] (the Euler Zero variant without them), with the
    properties of the specification proved about the embedding.

    The class keeps a [std::list] of (key, value) pairs, most recently used
    first, and a [std::unordered_map] from keys to iterators into that list.
    Iterators of a [std::list] name nodes, not positions: they stay valid
    while other nodes are inserted or erased.  The model therefore gives
    every list node an identity and lets the index store identities. *)

From stdpp Require Import gmap list.

(** ** Outcomes: defined results and undefined behaviour

    [front], [back] and [pop_back] on an empty [std::list], and [erase] or
    [operator*] on an iterator that names no live node, are undefined
    behaviour.  The embedding reports them as [Undefined]. *)

Inductive outcome (A : Type) : Type :=
| Done (a : A)
| Undefined.
Arguments Done {A} a.
Arguments Undefined {A}.

#[global] Instance outcome_ret : MRet outcome := fun A a => Done a.
#[global] Instance outcome_bind : MBind outcome := fun A B f m =>
  match m with
  | Done a => f a
  | Undefined => Undefined
  end.
#[global] Instance outcome_fmap : FMap outcome := fun A B f m =>
  match m with
  | Done a => Done (f a)
  | Undefined => Undefined
  end.

(** ** Machine integers

    [size_type] is [std::size_t]; the class only stores and compares it.
    The counters are [unsigned long long]: [++] wraps around at 2^64. *)

Definition size_type := N.
Definition counter := N.
Definition incr (n : counter) : counter := ((n + 1) mod 2 ^ 64)%N.

(** ** [std::list<T>] with node identities *)

Module StdList.

Definition node_id := nat.

Inductive iterator : Type :=
| Node (n : node_id)
| PastTheEnd.

#[global] Instance iterator_eq_dec : EqDecision iterator.
Proof. solve_decision. Defined.

Section std_list.
Context {T : Type}.

(** The nodes in order from [begin()] to [end()], and the identity the
    next allocated node gets.  Identities are never reused, so an
    iterator to an erased node stays invalid: that is the rule that
    [erase] invalidates the iterators to the erased node, not a statement
    about addresses.  A later node may be allocated where an erased one
    was; whether an invalidated iterator compares equal to a live one
    is not something the model speaks about. *)
Record t : Type := mk { nodes : list (node_id * T); fresh : node_id }.

Definition new : t := mk [] 0.

Definition begin (l : t) : iterator :=
  match nodes l with
  | (n, _) :: _ => Node n
  | [] => PastTheEnd
  end.

Definition end_ (l : t) : iterator := PastTheEnd.

Definition size (l : t) : size_type := N.of_nat (length (nodes l)).

Definition empty (l : t) : bool :=
  match nodes l with
  | [] => true
  | _ :: _ => false
  end.

Definition front (l : t) : outcome T :=
  match nodes l with
  | (_, x) :: _ => Done x
  | [] => Undefined
  end.

Definition back (l : t) : outcome T :=
  match last (nodes l) with
  | Some (_, x) => Done x
  | None => Undefined
  end.

Definition push_front (x : T) (l : t) : t :=
  mk ((fresh l, x) :: nodes l) (S (fresh l)).

Definition pop_back (l : t) : outcome t :=
  match nodes l with
  | [] => Undefined
  | _ :: _ => Done (mk (removelast (nodes l)) (fresh l))
  end.

(** The element of the node named [n]. *)
Fixpoint node_at (n : node_id) (ns : list (node_id * T)) : option T :=
  match ns with
  | [] => None
  | (m, x) :: ns' => if decide (m = n) then Some x else node_at n ns'
  end.

(** The list without the node named [n]; [None] when no node has that
    name. *)
Fixpoint unlink (n : node_id) (ns : list (node_id * T))
  : option (list (node_id * T)) :=
  match ns with
  | [] => None
  | (m, x) :: ns' =>
      if decide (m = n) then Some ns'
      else cons (m, x) <$> unlink n ns'
  end.

(** [*it] *)
Definition deref (it : iterator) (l : t) : outcome T :=
  match it with
  | Node n =>
      match node_at n (nodes l) with
      | Some x => Done x
      | None => Undefined
      end
  | PastTheEnd => Undefined
  end.

Definition erase (it : iterator) (l : t) : outcome t :=
  match it with
  | Node n =>
      match unlink n (nodes l) with
      | Some ns => Done (mk ns (fresh l))
      | None => Undefined
      end
  | PastTheEnd => Undefined
  end.

Definition clear (l : t) : t := mk [] (fresh l).

(** The elements in iteration order. *)
Definition elements (l : t) : list T := (nodes l).*2.

End std_list.
Arguments t : clear implicits.

End StdList.

(** ** Calls of the public interface and what they return *)

Inductive call (K V : Type) : Type :=
| Get (key : K)
| Peek (key : K)
| Put (key : K) (value : V)
| IsCached (key : K)
| Clear.
Arguments Get {K V} key.
Arguments Peek {K V} key.
Arguments Put {K V} key value.
Arguments IsCached {K V} key.
Arguments Clear {K V}.

Inductive reply : Type :=
| Iter (it : StdList.iterator)
| Bool (b : bool)
| Void.

(** [std::unordered_map::insert] keeps the old mapping of a key that is
    already there. *)
Definition um_insert `{Countable K} {A} (key : K) (a : A) (m : gmap K A)
  : gmap K A :=
  match m !! key with
  | Some _ => m
  | None => <[key := a]> m
  end.

(** ** [src/LRUCache.h] *)

Module LRUCache.
Section lru_cache.
Context `{Countable K} {V : Type}.

Record cache : Type := mk {
  max_size_ : size_type;
  container : StdList.t (K * V);
  lookupMap : gmap K StdList.iterator;
  cache_hits_ : counter;
  cache_misses_ : counter;
  update_count_ : counter;
  bounce_count_ : counter
}.

Definition set_container (l : StdList.t (K * V)) (c : cache) : cache :=
  mk (max_size_ c) l (lookupMap c)
     (cache_hits_ c) (cache_misses_ c) (update_count_ c) (bounce_count_ c).

Definition set_lookupMap (m : gmap K StdList.iterator) (c : cache)
  : cache :=
  mk (max_size_ c) (container c) m
     (cache_hits_ c) (cache_misses_ c) (update_count_ c) (bounce_count_ c).

Definition incr_cache_hits (c : cache) : cache :=
  mk (max_size_ c) (container c) (lookupMap c)
     (incr (cache_hits_ c)) (cache_misses_ c) (update_count_ c)
     (bounce_count_ c).

Definition incr_cache_misses (c : cache) : cache :=
  mk (max_size_ c) (container c) (lookupMap c)
     (cache_hits_ c) (incr (cache_misses_ c)) (update_count_ c)
     (bounce_count_ c).

Definition incr_update_count (c : cache) : cache :=
  mk (max_size_ c) (container c) (lookupMap c)
     (cache_hits_ c) (cache_misses_ c) (incr (update_count_ c))
     (bounce_count_ c).

Definition incr_bounce_count (c : cache) : cache :=
  mk (max_size_ c) (container c) (lookupMap c)
     (cache_hits_ c) (cache_misses_ c) (update_count_ c)
     (incr (bounce_count_ c)).

(** The constructor. *)
Definition LRUCache (size : size_type) : cache :=
  mk size StdList.new ∅ 0%N 0%N 0%N 0%N.

Definition begin (c : cache) : StdList.iterator :=
  StdList.begin (container c).
Definition end_ (c : cache) : StdList.iterator :=
  StdList.end_ (container c).
Definition front (c : cache) : outcome (K * V) :=
  StdList.front (container c).
Definition back (c : cache) : outcome (K * V) :=
  StdList.back (container c).

Definition empty (c : cache) : bool := StdList.empty (container c).
Definition size (c : cache) : size_type := StdList.size (container c).
Definition max_size (c : cache) : size_type := max_size_ c.

Definition cache_hits (c : cache) : counter := cache_hits_ c.
Definition cache_misses (c : cache) : counter := cache_misses_ c.
Definition update_count (c : cache) : counter := update_count_ c.
Definition bounce_count (c : cache) : counter := bounce_count_ c.

Definition get (key : K) (c : cache)
  : outcome (StdList.iterator * cache) :=
  match lookupMap c !! key with
  | None =>
      let c := incr_cache_misses c in
      mret (end_ c, c)
  | Some containerPos =>
      let c := incr_cache_hits c in
      existing ← StdList.deref containerPos (container c);
      l ← StdList.erase containerPos (container c);
      let c := set_container (StdList.push_front existing l) c in
      let c := set_lookupMap
                 (<[key := StdList.begin (container c)]> (lookupMap c)) c in
      mret (StdList.begin (container c), c)
  end.

Definition peek (key : K) (c : cache) : StdList.iterator :=
  match lookupMap c !! key with
  | None => end_ c
  | Some containerPos => containerPos
  end.

Definition put (key : K) (value : V) (c : cache) : outcome cache :=
  match lookupMap c !! key with
  | None =>
      c ← (if (size c =? max_size c)%N then
             let c := incr_bounce_count c in
             oldest ← StdList.back (container c);
             let c := set_lookupMap (delete oldest.1 (lookupMap c)) c in
             l ← StdList.pop_back (container c);
             mret (set_container l c)
           else mret c);
      let c := set_container
                 (StdList.push_front (key, value) (container c)) c in
      mret (set_lookupMap
              (um_insert key (StdList.begin (container c)) (lookupMap c))
              c)
  | Some containerPos =>
      let c := incr_update_count c in
      l ← StdList.erase containerPos (container c);
      let c := set_container (StdList.push_front (key, value) l) c in
      mret (set_lookupMap
              (<[key := StdList.begin (container c)]> (lookupMap c)) c)
  end.

Definition clear (c : cache) : cache :=
  set_lookupMap ∅ (set_container (StdList.clear (container c)) c).

Definition is_cached (key : K) (c : cache) : bool :=
  bool_decide (lookupMap c !! key ≠ None).

(** [*it] for an iterator returned by [get], [peek] or [begin]. *)
Definition deref (it : StdList.iterator) (c : cache) : outcome (K * V) :=
  StdList.deref it (container c).

(** The entries from [begin()] to [end()]: most recently used first. *)
Definition entries (c : cache) : list (K * V) :=
  StdList.elements (container c).

(** One call of the public interface: the state it leaves and what it
    returns.  The [const] members leave the object as it is. *)
Definition step (o : call K V) (c : cache) : outcome (reply * cache) :=
  match o with
  | Get key => '(it, c') ← get key c; mret (Iter it, c')
  | Peek key => mret (Iter (peek key c), c)
  | Put key value => c' ← put key value c; mret (Void, c')
  | IsCached key => mret (Bool (is_cached key c), c)
  | Clear => mret (Void, clear c)
  end.

(** A sequence of calls, first call first, with the replies in order. *)
Fixpoint run (ops : list (call K V)) (c : cache)
  : outcome (list reply * cache) :=
  match ops with
  | [] => mret ([], c)
  | o :: ops' =>
      '(r, c') ← step o c;
      '(rs, c'') ← run ops' c';
      mret (r :: rs, c'')
  end.

(** The states an object can be in: those a sequence of calls leaves a
    freshly constructed cache in. *)
Definition reachable (c : cache) : Prop :=
  ∃ size ops rs, run ops (LRUCache size) = Done (rs, c).

End lru_cache.
Arguments cache K {_ _} V.
End LRUCache.

(** ** [src/unnamed/part_000]: the Euler Zero variant, without counters *)

Module EulerZero.
Section lru_cache.
Context `{Countable K} {V : Type}.

Record cache : Type := mk {
  max_size_ : size_type;
  container : StdList.t (K * V);
  lookupMap : gmap K StdList.iterator
}.

Definition set_container (l : StdList.t (K * V)) (c : cache) : cache :=
  mk (max_size_ c) l (lookupMap c).

Definition set_lookupMap (m : gmap K StdList.iterator) (c : cache)
  : cache :=
  mk (max_size_ c) (container c) m.

Definition LRUCache (size : size_type) : cache := mk size StdList.new ∅.

Definition begin (c : cache) : StdList.iterator :=
  StdList.begin (container c).
Definition end_ (c : cache) : StdList.iterator :=
  StdList.end_ (container c).
Definition front (c : cache) : outcome (K * V) :=
  StdList.front (container c).
Definition back (c : cache) : outcome (K * V) :=
  StdList.back (container c).

Definition empty (c : cache) : bool := StdList.empty (container c).
Definition size (c : cache) : size_type := StdList.size (container c).
Definition max_size (c : cache) : size_type := max_size_ c.

Definition get (key : K) (c : cache)
  : outcome (StdList.iterator * cache) :=
  match lookupMap c !! key with
  | None => mret (end_ c, c)
  | Some containerPos =>
      existing ← StdList.deref containerPos (container c);
      l ← StdList.erase containerPos (container c);
      let c := set_container (StdList.push_front existing l) c in
      let c := set_lookupMap
                 (<[key := StdList.begin (container c)]> (lookupMap c)) c in
      mret (StdList.begin (container c), c)
  end.

Definition peek (key : K) (c : cache) : StdList.iterator :=
  match lookupMap c !! key with
  | None => end_ c
  | Some containerPos => containerPos
  end.

Definition put (key : K) (value : V) (c : cache) : outcome cache :=
  match lookupMap c !! key with
  | None =>
      c ← (if (size c =? max_size c)%N then
             oldest ← StdList.back (container c);
             let c := set_lookupMap (delete oldest.1 (lookupMap c)) c in
             l ← StdList.pop_back (container c);
             mret (set_container l c)
           else mret c);
      let c := set_container
                 (StdList.push_front (key, value) (container c)) c in
      mret (set_lookupMap
              (um_insert key (StdList.begin (container c)) (lookupMap c))
              c)
  | Some containerPos =>
      l ← StdList.erase containerPos (container c);
      let c := set_container (StdList.push_front (key, value) l) c in
      mret (set_lookupMap
              (<[key := StdList.begin (container c)]> (lookupMap c)) c)
  end.

Definition clear (c : cache) : cache :=
  set_lookupMap ∅ (set_container (StdList.clear (container c)) c).

Definition is_cached (key : K) (c : cache) : bool :=
  bool_decide (lookupMap c !! key ≠ None).

Definition step (o : call K V) (c : cache) : outcome (reply * cache) :=
  match o with
  | Get key => '(it, c') ← get key c; mret (Iter it, c')
  | Peek key => mret (Iter (peek key c), c)
  | Put key value => c' ← put key value c; mret (Void, c')
  | IsCached key => mret (Bool (is_cached key c), c)
  | Clear => mret (Void, clear c)
  end.

Fixpoint run (ops : list (call K V)) (c : cache)
  : outcome (list reply * cache) :=
  match ops with
  | [] => mret ([], c)
  | o :: ops' =>
      '(r, c') ← step o c;
      '(rs, c'') ← run ops' c';
      mret (r :: rs, c'')
  end.

End lru_cache.
Arguments cache K {_ _} V.
End EulerZero.

(** ** The two variants side by side, and the invariants of the class *)

Section model.
Context `{Countable K} {V : Type}.

(** What is left of a cache of [src/LRUCache.h] when the four counters are
    forgotten. *)
Definition strip (c : LRUCache.cache K V) : EulerZero.cache K V :=
  EulerZero.mk (LRUCache.max_size_ c) (LRUCache.container c)
               (LRUCache.lookupMap c).

(** The index [m] and the list [l] describe the same entries: node
    identities and keys are not repeated, no identity is ahead of the
    allocator, and [m] sends exactly the keys of the list, each to the
    node that holds it. *)
Record linked (l : StdList.t (K * V)) (m : gmap K StdList.iterator)
  : Prop := {
  linked_ids : NoDup (StdList.nodes l).*1;
  linked_fresh : ∀ n, n ∈ (StdList.nodes l).*1 → n < StdList.fresh l;
  linked_keys : NoDup (StdList.elements l).*1;
  linked_index : ∀ k it,
    m !! k = Some it ↔
    ∃ n v, it = StdList.Node n ∧ (n, (k, v)) ∈ StdList.nodes l
}.

(** The class invariant. *)
Definition wf (c : LRUCache.cache K V) : Prop :=
  linked (LRUCache.container c) (LRUCache.lookupMap c) ∧
  (LRUCache.size c ≤ LRUCache.max_size c)%N.

(** Index and recency list agree, as the data model asks: the keys of the
    index are the keys of the list, no key is listed twice, and every
    locator of the index names the live entry of its key. *)
Definition consistent (c : LRUCache.cache K V) : Prop :=
  dom (LRUCache.lookupMap c) =@{gset K} list_to_set (LRUCache.entries c).*1 ∧
  NoDup (LRUCache.entries c).*1 ∧
  ∀ k it, LRUCache.lookupMap c !! k = Some it →
          ∃ v, LRUCache.deref it c = Done (k, v).

(** A run of [put] calls, one per (key, value) pair, first pair first. *)
Definition puts (kvs : list (K * V)) : list (call K V) :=
  (λ kv, Put kv.1 kv.2) <$> kvs.

(** The calls of the members that are not [const]. *)
Definition mutating (o : call K V) : bool :=
  match o with
  | Get _ | Put _ _ | Clear => true
  | Peek _ | IsCached _ => false
  end.

(** The state a sequence of calls leaves a new cache of capacity [size]
    in, and their replies. *)
Definition state_after (size : size_type) (ops : list (call K V))
  : LRUCache.cache K V :=
  match LRUCache.run ops (LRUCache.LRUCache size) with
  | Done (_, c) => c
  | Undefined => LRUCache.LRUCache size
  end.

Definition replies_after (size : size_type) (ops : list (call K V))
  : list reply :=
  match LRUCache.run ops (LRUCache.LRUCache size) with
  | Done (rs, _) => rs
  | Undefined => []
  end.

End model.

(** ** Counting calls *)

Section counting.
Context {K V : Type}.

Definition is_get (o : call K V) : bool :=
  match o with
  | Get _ => true
  | _ => false
  end.

Definition is_put (o : call K V) : bool :=
  match o with
  | Put _ _ => true
  | _ => false
  end.

(** How many calls of a sequence are of one kind. *)
Definition calls (kind : call K V → bool) (ops : list (call K V)) : N :=
  N.of_nat (length (filter kind ops)).

End counting.

(** ** Sample runs on a cache from numbers to numbers *)

Definition sample_calls : list (call nat nat) :=
  [Put 9 90; Get 9; Get 5; Put 9 91].

Definition two_entries : list (call nat nat) := puts [(1, 10); (2, 20)].

Definition lookups_only : list (call nat nat) := [Get 1; Peek 1; Clear].

(** The scenario of the specification: capacity 2, put(A,1), put(B,2),
    get(A), put(C,3), is_cached(B), with A, B, C as 1, 2, 3. *)
Definition scenario : list (call nat nat) :=
  [Put 1 1; Put 2 2; Get 1; Put 3 3; IsCached 2].

(** A decidable proposition over closed terms, settled by evaluation. *)
Ltac decide_by_computation :=
  apply (bool_decide_unpack _); vm_compute; exact I.

(** * Properties *)

(** The scenario runs as the specification says: [get] returns the entry
    (A, 1), the second [put] evicts B, the order is then C, A, and one
    bounce is counted. *)
Example scenario_runs :
  LRUCache.entries (state_after 2%N (take 3 scenario)) = [(1, 1); (2, 2)] ∧
  LRUCache.front (state_after 2%N (take 3 scenario)) = Done (1, 1) ∧
  LRUCache.entries (state_after 2%N scenario) = [(3, 3); (1, 1)] ∧
  last (replies_after 2%N scenario) = Some (Bool false) ∧
  LRUCache.bounce_count (state_after 2%N scenario) = 1%N.
Proof. by vm_compute. Qed.

(** ** Lists of nodes *)

Section nodes.
Context {T : Type}.
Implicit Types (n : StdList.node_id) (x : T)
  (ns : list (StdList.node_id * T)).

Lemma unlink_app ns1 n x ns2 :
  n ∉ ns1.*1 →
  StdList.unlink n (ns1 ++ (n, x) :: ns2) = Some (ns1 ++ ns2).
Proof.
  induction ns1 as [|[m y] ns1 IH]; intros Hn; simpl.
  - by rewrite decide_True.
  - rewrite fmap_cons, not_elem_of_cons in Hn. destruct Hn as [Hm Hn].
    simpl in Hm. rewrite decide_False by done. by rewrite IH.
Qed.

Lemma node_at_app ns1 n x ns2 :
  n ∉ ns1.*1 →
  StdList.node_at n (ns1 ++ (n, x) :: ns2) = Some x.
Proof.
  induction ns1 as [|[m y] ns1 IH]; intros Hn; simpl.
  - by rewrite decide_True.
  - rewrite fmap_cons, not_elem_of_cons in Hn. destruct Hn as [Hm Hn].
    simpl in Hm. rewrite decide_False by done. by apply IH.
Qed.

(** A node of the list can be singled out by its identity. *)
Lemma elem_of_nodes_split n x ns :
  NoDup ns.*1 → (n, x) ∈ ns →
  ∃ ns1 ns2, ns = ns1 ++ (n, x) :: ns2 ∧ n ∉ ns1.*1.
Proof.
  intros Hnd Hin. apply list_elem_of_split in Hin as (ns1 & ns2 & ->).
  exists ns1, ns2. split; [done|].
  rewrite fmap_app, fmap_cons in Hnd. simpl in Hnd.
  apply NoDup_app in Hnd as (_ & Hd & _).
  intros Hn. apply (Hd n Hn). left.
Qed.

Lemma last_snoc_inv ns :
  ns ≠ [] → ∃ ns1 n x, ns = ns1 ++ [(n, x)].
Proof.
  destruct ns as [|p ns _] using rev_ind; [done|].
  intros _. destruct p as [n x]. by exists ns, n, x.
Qed.

Lemma back_snoc (l : StdList.t T) ns n x :
  StdList.nodes l = ns ++ [(n, x)] → StdList.back l = Done x.
Proof. intros Hns. unfold StdList.back. by rewrite Hns, last_snoc. Qed.

Lemma pop_back_snoc (l : StdList.t T) ns n x :
  StdList.nodes l = ns ++ [(n, x)] →
  StdList.pop_back l = Done (StdList.mk ns (StdList.fresh l)).
Proof.
  intros Hns. unfold StdList.pop_back. rewrite Hns, removelast_last.
  by destruct ns.
Qed.

End nodes.

Lemma bind_Done {A B} (f : A → outcome B) (a : A) : Done a ≫= f = f a.
Proof. reflexivity. Qed.

(** ** The index and the list together *)

Section linked.
Context `{Countable K} {V : Type}.
Implicit Types (l : StdList.t (K * V)) (m : gmap K StdList.iterator)
  (k : K) (v : V) (n : StdList.node_id).

Lemma elem_of_keys k (ns : list (StdList.node_id * (K * V))) :
  k ∈ ns.*2.*1 ↔ ∃ n v, (n, (k, v)) ∈ ns.
Proof.
  rewrite list_elem_of_fmap. split.
  - intros (kv & -> & Hin). apply list_elem_of_fmap in Hin.
    destruct Hin as ([n [k v]] & -> & Hin). by exists n, v.
  - intros (n & v & Hin). exists (k, v). split; [done|].
    apply list_elem_of_fmap. by exists (n, (k, v)).
Qed.

Lemma linked_lookup_None l m k :
  linked l m → m !! k = None ↔ k ∉ (StdList.elements l).*1.
Proof.
  intros Hl. unfold StdList.elements. rewrite elem_of_keys. split.
  - intros Hm (n & v & Hin).
    assert (m !! k = Some (StdList.Node n)) as Hs
      by (apply (linked_index _ _ Hl); eauto).
    congruence.
  - intros Hk. destruct (m !! k) as [it|] eqn:Hm; [|done].
    apply (linked_index _ _ Hl) in Hm as (n & v & _ & Hin).
    destruct Hk; eauto.
Qed.

Lemma linked_new : linked (K:=K) (V:=V) StdList.new ∅.
Proof.
  split; simpl.
  - constructor.
  - intros n Hn. by apply elem_of_nil in Hn.
  - constructor.
  - intros k it. rewrite lookup_empty. split; [done|].
    intros (n & v & _ & Hin). by apply elem_of_nil in Hin.
Qed.

Lemma linked_clear l : linked (StdList.clear l) ∅.
Proof.
  split; simpl.
  - constructor.
  - intros n Hn. by apply elem_of_nil in Hn.
  - constructor.
  - intros k it. rewrite lookup_empty. split; [done|].
    intros (n & v & _ & Hin). by apply elem_of_nil in Hin.
Qed.

(** A new entry for a key the index does not have. *)
Lemma linked_push_front l m k v :
  linked l m → m !! k = None →
  linked (StdList.push_front (k, v) l)
         (<[k := StdList.Node (StdList.fresh l)]> m).
Proof.
  intros Hl Hk. pose proof (proj1 (linked_lookup_None _ _ _ Hl) Hk) as Hnk.
  split; simpl.
  - constructor; [|apply Hl].
    intros Hin. apply (linked_fresh _ _ Hl) in Hin. lia.
  - intros n [->|Hin]%elem_of_cons; [lia|].
    apply (linked_fresh _ _ Hl) in Hin. lia.
  - unfold StdList.elements. simpl. constructor; [done|apply Hl].
  - intros k' it. destruct (decide (k = k')) as [<-|Hne].
    + rewrite lookup_insert_eq. split.
      * intros [= <-]. exists (StdList.fresh l), v. split; [done|left].
      * intros (n & v' & -> & [Heq|Hin]%elem_of_cons).
        -- by inversion Heq.
        -- destruct Hnk. apply elem_of_keys. eauto.
    + rewrite lookup_insert_ne by done. rewrite (linked_index _ _ Hl).
      split; intros (n & v' & -> & Hin); exists n, v'; (split; [done|]).
      * by right.
      * apply elem_of_cons in Hin as [Heq|Hin]; [|done].
        inversion Heq; congruence.
Qed.

(** Taking one node out of the list and its key out of the index. *)
Lemma linked_remove l m ns1 n k v ns2 :
  linked l m → StdList.nodes l = ns1 ++ (n, (k, v)) :: ns2 →
  linked (StdList.mk (ns1 ++ ns2) (StdList.fresh l)) (delete k m).
Proof.
  intros Hl Hns.
  pose proof (linked_ids _ _ Hl) as Hids.
  pose proof (linked_keys _ _ Hl) as Hkeys.
  unfold StdList.elements in Hkeys. rewrite Hns in Hids, Hkeys.
  rewrite fmap_app, fmap_cons in Hids. rewrite !fmap_app, !fmap_cons in Hkeys.
  simpl in Hids, Hkeys.
  apply NoDup_app in Hids as (Hi1 & Hi12 & Hi2).
  apply NoDup_cons in Hi2 as [Hi2n Hi2].
  apply NoDup_app in Hkeys as (Hk1 & Hk12 & Hk2).
  apply NoDup_cons in Hk2 as [Hk2n Hk2].
  assert (k ∉ (ns1 ++ ns2).*2.*1) as Hgone.
  { rewrite !fmap_app, elem_of_app. intros [Hin|Hin]; [|done].
    apply (Hk12 _ Hin). left. }
  split; simpl.
  - rewrite fmap_app. apply NoDup_app. split_and!; [done| |done].
    intros n' Hin1 Hin2. apply (Hi12 _ Hin1). by right.
  - intros n' Hin. apply (linked_fresh _ _ Hl). rewrite Hns.
    rewrite fmap_app, fmap_cons. rewrite fmap_app in Hin.
    apply elem_of_app in Hin as [Hin|Hin]; apply elem_of_app;
      [by left|right; by right].
  - unfold StdList.elements. simpl. rewrite !fmap_app.
    apply NoDup_app. split_and!; [done| |done].
    intros k' Hin1 Hin2. apply (Hk12 _ Hin1). by right.
  - intros k' it. destruct (decide (k = k')) as [<-|Hne].
    + rewrite lookup_delete_eq. split; [done|].
      intros (n' & v' & _ & Hin). destruct Hgone.
      apply elem_of_keys. eauto.
    + rewrite lookup_delete_ne by done. rewrite (linked_index _ _ Hl), Hns.
      split; intros (n' & v' & -> & Hin); exists n', v'; (split; [done|]).
      * apply elem_of_app in Hin as [Hin|Hin]; apply elem_of_app;
          [by left|right].
        apply elem_of_cons in Hin as [Heq|Hin]; [|done].
        inversion Heq; congruence.
      * apply elem_of_app in Hin as [Hin|Hin]; apply elem_of_app;
          [by left|right; by right].
Qed.

(** What the index stores for a key is the node of that key. *)
Lemma linked_locate l m k it :
  linked l m → m !! k = Some it →
  ∃ n v ns1 ns2,
    it = StdList.Node n ∧
    StdList.nodes l = ns1 ++ (n, (k, v)) :: ns2 ∧ n ∉ ns1.*1.
Proof.
  intros Hl Hm. apply (linked_index _ _ Hl) in Hm as (n & v & -> & Hin).
  apply elem_of_nodes_split in Hin as (ns1 & ns2 & Hns & Hn);
    [|apply Hl].
  by exists n, v, ns1, ns2.
Qed.

End linked.

(** ** The operations of [src/LRUCache.h], one at a time *)

Section operations.
Context `{Countable K} {V : Type}.
Implicit Types (c : LRUCache.cache K V) (k : K) (v : V)
  (it : StdList.iterator).

Lemma is_cached_true c k :
  LRUCache.is_cached k c = true ↔ is_Some (LRUCache.lookupMap c !! k).
Proof.
  unfold LRUCache.is_cached. rewrite bool_decide_eq_true.
  by rewrite not_eq_None_Some.
Qed.

Lemma is_cached_false c k :
  LRUCache.is_cached k c = false ↔ LRUCache.lookupMap c !! k = None.
Proof.
  unfold LRUCache.is_cached. rewrite bool_decide_eq_false.
  split; [apply dec_stable|]. intros -> Hn. by apply Hn.
Qed.

(** Under the invariant, a key is cached exactly when the list has it. *)
Lemma is_cached_entries c k :
  wf c → LRUCache.is_cached k c = true ↔ k ∈ (LRUCache.entries c).*1.
Proof.
  intros [Hl _]. unfold LRUCache.entries.
  destruct (LRUCache.is_cached k c) eqn:Hc.
  - split; [intros _|done]. apply is_cached_true in Hc.
    destruct (decide (k ∈ (StdList.elements (LRUCache.container c)).*1))
      as [|Hn]; [done|].
    apply (linked_lookup_None _ _ _ Hl) in Hn. rewrite Hn in Hc.
    by destruct Hc.
  - split; [done|]. intros Hin. apply is_cached_false in Hc.
    by apply (linked_lookup_None _ _ _ Hl) in Hc.
Qed.

Lemma get_miss c k :
  LRUCache.lookupMap c !! k = None →
  LRUCache.get k c =
  Done (StdList.PastTheEnd, LRUCache.incr_cache_misses c).
Proof. intros Hm. unfold LRUCache.get. by rewrite Hm. Qed.

(** A hit: the node of the key is unlinked and a new node with the same
    entry is linked at the front; the index is pointed at the new node. *)
Lemma get_hit c k it :
  wf c → LRUCache.lookupMap c !! k = Some it →
  ∃ n v ns1 ns2,
    it = StdList.Node n ∧
    StdList.nodes (LRUCache.container c) = ns1 ++ (n, (k, v)) :: ns2 ∧
    let f := StdList.fresh (LRUCache.container c) in
    let c' :=
      LRUCache.mk (LRUCache.max_size_ c)
        (StdList.mk ((f, (k, v)) :: ns1 ++ ns2) (S f))
        (<[k := StdList.Node f]> (LRUCache.lookupMap c))
        (incr (LRUCache.cache_hits_ c)) (LRUCache.cache_misses_ c)
        (LRUCache.update_count_ c) (LRUCache.bounce_count_ c) in
    LRUCache.get k c = Done (StdList.Node f, c') ∧ wf c'.
Proof.
  intros [Hl Hsz] Hm.
  destruct (linked_locate _ _ _ _ Hl Hm)
    as (n & v & ns1 & ns2 & -> & Hns & Hn).
  exists n, v, ns1, ns2. split_and!; [done..|]. simpl. split.
  - unfold LRUCache.get. rewrite Hm. simpl. unfold StdList.deref, StdList.erase.
    rewrite Hns, node_at_app, unlink_app by done. reflexivity.
  - pose proof (linked_remove _ _ _ _ _ _ _ Hl Hns) as Hl'.
    apply (linked_push_front _ _ k v) in Hl'; [|apply lookup_delete_eq].
    rewrite insert_delete_eq in Hl'. split; [exact Hl'|].
    unfold LRUCache.size, LRUCache.max_size, StdList.size in *. simpl.
    rewrite Hns in Hsz. rewrite length_app in *. simpl in *. lia.
Qed.

(** An update: as a hit, with the new value and the update counter. *)
Lemma put_update c k v it :
  wf c → LRUCache.lookupMap c !! k = Some it →
  ∃ n v0 ns1 ns2,
    it = StdList.Node n ∧
    StdList.nodes (LRUCache.container c) = ns1 ++ (n, (k, v0)) :: ns2 ∧
    let f := StdList.fresh (LRUCache.container c) in
    let c' :=
      LRUCache.mk (LRUCache.max_size_ c)
        (StdList.mk ((f, (k, v)) :: ns1 ++ ns2) (S f))
        (<[k := StdList.Node f]> (LRUCache.lookupMap c))
        (LRUCache.cache_hits_ c) (LRUCache.cache_misses_ c)
        (incr (LRUCache.update_count_ c)) (LRUCache.bounce_count_ c) in
    LRUCache.put k v c = Done c' ∧ wf c'.
Proof.
  intros [Hl Hsz] Hm.
  destruct (linked_locate _ _ _ _ Hl Hm)
    as (n & v0 & ns1 & ns2 & -> & Hns & Hn).
  exists n, v0, ns1, ns2. split_and!; [done..|]. simpl. split.
  - unfold LRUCache.put. rewrite Hm. simpl. unfold StdList.erase.
    rewrite Hns, unlink_app by done. reflexivity.
  - pose proof (linked_remove _ _ _ _ _ _ _ Hl Hns) as Hl'.
    apply (linked_push_front _ _ k v) in Hl'; [|apply lookup_delete_eq].
    rewrite insert_delete_eq in Hl'. split; [exact Hl'|].
    unfold LRUCache.size, LRUCache.max_size, StdList.size in *. simpl.
    rewrite Hns in Hsz. rewrite length_app in *. simpl in *. lia.
Qed.

(** A new key while there is room: one more node at the front. *)
Lemma put_new_room c k v :
  wf c → LRUCache.lookupMap c !! k = None →
  LRUCache.size c ≠ LRUCache.max_size c →
  let f := StdList.fresh (LRUCache.container c) in
  let c' :=
    LRUCache.mk (LRUCache.max_size_ c)
      (StdList.mk ((f, (k, v)) :: StdList.nodes (LRUCache.container c))
                  (S f))
      (<[k := StdList.Node f]> (LRUCache.lookupMap c))
      (LRUCache.cache_hits_ c) (LRUCache.cache_misses_ c)
      (LRUCache.update_count_ c) (LRUCache.bounce_count_ c) in
  LRUCache.put k v c = Done c' ∧ wf c'.
Proof.
  intros [Hl Hsz] Hm Hne. simpl. split.
  - unfold LRUCache.put. rewrite Hm.
    apply N.eqb_neq in Hne. rewrite Hne. simpl.
    unfold um_insert. by rewrite Hm.
  - split; [by apply linked_push_front|].
    unfold LRUCache.size, LRUCache.max_size, StdList.size in *. simpl in *.
    lia.
Qed.

(** A new key while the cache is full and has an entry to give up: the
    last node goes, with its key in the index, and the bounce counter
    counts it. *)
Lemma put_new_full c k v :
  wf c → LRUCache.lookupMap c !! k = None →
  LRUCache.size c = LRUCache.max_size c →
  (0 < LRUCache.max_size c)%N →
  ∃ ns n ko vo,
    StdList.nodes (LRUCache.container c) = ns ++ [(n, (ko, vo))] ∧
    let f := StdList.fresh (LRUCache.container c) in
    let c' :=
      LRUCache.mk (LRUCache.max_size_ c)
        (StdList.mk ((f, (k, v)) :: ns) (S f))
        (<[k := StdList.Node f]> (delete ko (LRUCache.lookupMap c)))
        (LRUCache.cache_hits_ c) (LRUCache.cache_misses_ c)
        (LRUCache.update_count_ c) (incr (LRUCache.bounce_count_ c)) in
    LRUCache.put k v c = Done c' ∧ wf c'.
Proof.
  intros [Hl Hsz] Hm Heq Hpos.
  destruct (last_snoc_inv (StdList.nodes (LRUCache.container c)))
    as (ns & n & [ko vo] & Hns).
  { intros Hnil. unfold LRUCache.size, StdList.size in Heq.
    rewrite Hnil in Heq. simpl in Heq. lia. }
  exists ns, n, ko, vo. split; [done|]. simpl.
  assert (delete ko (LRUCache.lookupMap c) !! k = None) as Hm'.
  { apply lookup_delete_None. by right. }
  split.
  - unfold LRUCache.put. rewrite Hm.
    apply N.eqb_eq in Heq. rewrite Heq. simpl.
    cbv zeta. rewrite (back_snoc _ ns n (ko, vo)) by exact Hns.
    rewrite bind_Done. cbv zeta.
    rewrite (pop_back_snoc _ ns n (ko, vo)) by exact Hns.
    simpl. unfold um_insert. simpl. by rewrite Hm'.
  - pose proof (linked_remove _ _ _ _ _ _ _ Hl Hns) as Hl'.
    rewrite app_nil_r in Hl'.
    apply (linked_push_front _ _ k v) in Hl'; [|done].
    split; [exact Hl'|].
    unfold LRUCache.size, LRUCache.max_size, StdList.size in *. simpl.
    rewrite Hns, length_app in Heq. simpl in *. lia.
Qed.

(** A new key in a cache of capacity 0: the cache counts as full while it
    is empty, and [back()] is called on the empty list. *)
Lemma put_new_nothing_to_evict c k v :
  LRUCache.lookupMap c !! k = None →
  StdList.nodes (LRUCache.container c) = [] →
  LRUCache.max_size c = 0%N →
  LRUCache.put k v c = Undefined.
Proof.
  intros Hm Hns H0. unfold LRUCache.put. rewrite Hm.
  unfold LRUCache.size, StdList.size. rewrite Hns, H0. simpl.
  unfold StdList.back. by rewrite Hns.
Qed.

Lemma wf_new (size : size_type) : wf (LRUCache.LRUCache (K:=K) (V:=V) size).
Proof.
  split; [apply linked_new|].
  unfold LRUCache.size, StdList.size. simpl. lia.
Qed.

Lemma wf_clear c : wf c → wf (LRUCache.clear c).
Proof.
  intros _. split; [apply linked_clear|].
  unfold LRUCache.size, StdList.size. simpl. lia.
Qed.

End operations.

(** ** Sequences of calls *)

Section runs.
Context `{Countable K} {V : Type}.
Implicit Types (c : LRUCache.cache K V) (k : K) (v : V)
  (o : call K V) (ops : list (call K V)).

Lemma wf_incr_cache_misses c : wf c → wf (LRUCache.incr_cache_misses c).
Proof. by intros [??]. Qed.

Lemma get_defined c k :
  wf c →
  ∃ it c', LRUCache.get k c = Done (it, c') ∧ wf c' ∧
           LRUCache.max_size c' = LRUCache.max_size c.
Proof.
  intros Hwf. destruct (LRUCache.lookupMap c !! k) as [it|] eqn:Hm.
  - destruct (get_hit c k it Hwf Hm)
      as (n & v & ns1 & ns2 & _ & _ & Hget & Hwf').
    eexists _, _. split; [exact Hget|]. by split.
  - eexists _, _. split; [by apply get_miss|].
    split; [by apply wf_incr_cache_misses|done].
Qed.

(** [put] is defined on every cache that can hold an entry; on a cache
    of capacity 0 it is not. *)
Lemma put_defined_or_zero c k v :
  wf c →
  (∃ c', LRUCache.put k v c = Done c' ∧ wf c' ∧
         LRUCache.max_size c' = LRUCache.max_size c) ∨
  (LRUCache.put k v c = Undefined ∧ LRUCache.max_size c = 0%N).
Proof.
  intros Hwf. destruct (LRUCache.lookupMap c !! k) as [it|] eqn:Hm.
  - left. destruct (put_update c k v it Hwf Hm)
      as (n & v0 & ns1 & ns2 & _ & _ & Hput & Hwf').
    eexists. split; [exact Hput|]. by split.
  - destruct (decide (LRUCache.size c = LRUCache.max_size c)) as [Heq|Hne].
    + destruct (decide (LRUCache.max_size c = 0%N)) as [H0|Hpos].
      * right. split; [|done]. apply put_new_nothing_to_evict; [done| |done].
        unfold LRUCache.size, StdList.size in Heq. rewrite H0 in Heq.
        destruct (StdList.nodes (LRUCache.container c)); [done|].
        simpl in Heq. lia.
      * left. destruct (put_new_full c k v Hwf Hm Heq)
          as (ns & n & ko & vo & _ & Hput & Hwf'); [lia|].
        eexists. split; [exact Hput|]. by split.
    + left. destruct (put_new_room c k v Hwf Hm Hne) as [Hput Hwf'].
      eexists. split; [exact Hput|]. by split.
Qed.

Lemma step_wf o c r c' :
  wf c → LRUCache.step o c = Done (r, c') →
  wf c' ∧ LRUCache.max_size c' = LRUCache.max_size c.
Proof.
  intros Hwf Hstep. destruct o as [k|k|k v|k|]; simpl in Hstep.
  - destruct (get_defined c k Hwf) as (it & c1 & Hget & Hwf1 & Hmax).
    rewrite Hget in Hstep. by inversion Hstep; subst.
  - by inversion Hstep; subst.
  - destruct (put_defined_or_zero c k v Hwf)
      as [(c1 & Hput & Hwf1 & Hmax)|[Hput _]]; rewrite Hput in Hstep.
    + by inversion Hstep; subst.
    + discriminate.
  - by inversion Hstep; subst.
  - inversion Hstep; subst. split; [by apply wf_clear|done].
Qed.

Lemma step_defined o c :
  wf c → (0 < LRUCache.max_size c)%N →
  ∃ r c', LRUCache.step o c = Done (r, c').
Proof.
  intros Hwf Hpos. destruct o as [k|k|k v|k|]; simpl; eauto.
  - destruct (get_defined c k Hwf) as (it & c1 & -> & _). simpl. eauto.
  - destruct (put_defined_or_zero c k v Hwf)
      as [(c1 & -> & _)|[_ H0]]; [simpl; eauto|lia].
Qed.

Lemma run_cons_Done o ops c r c1 rs c2 :
  LRUCache.step o c = Done (r, c1) → LRUCache.run ops c1 = Done (rs, c2) →
  LRUCache.run (o :: ops) c = Done (r :: rs, c2).
Proof. intros Hstep Hrun. simpl. rewrite Hstep. simpl. by rewrite Hrun. Qed.

Lemma run_wf ops c rs c' :
  wf c → LRUCache.run ops c = Done (rs, c') →
  wf c' ∧ LRUCache.max_size c' = LRUCache.max_size c.
Proof.
  revert c rs. induction ops as [|o ops IH]; intros c rs Hwf Hrun;
    simpl in Hrun.
  - by inversion Hrun; subst.
  - destruct (LRUCache.step o c) as [[r c1]|] eqn:Hstep; [|done].
    simpl in Hrun.
    destruct (LRUCache.run ops c1) as [[rs1 c2]|] eqn:Hrun1; [|done].
    inversion Hrun; subst.
    destruct (step_wf _ _ _ _ Hwf Hstep) as [Hwf1 Hmax1].
    destruct (IH _ _ Hwf1 Hrun1) as [Hwf2 Hmax2].
    split; [done|congruence].
Qed.

Lemma run_defined ops c :
  wf c → (0 < LRUCache.max_size c)%N →
  ∃ rs c', LRUCache.run ops c = Done (rs, c').
Proof.
  revert c. induction ops as [|o ops IH]; intros c Hwf Hpos; simpl.
  - eauto.
  - destruct (step_defined o c Hwf Hpos) as (r & c1 & Hstep).
    rewrite Hstep. simpl.
    destruct (step_wf _ _ _ _ Hwf Hstep) as [Hwf1 Hmax1].
    destruct (IH c1 Hwf1) as (rs & c2 & ->); [by rewrite Hmax1|].
    simpl. eauto.
Qed.

Lemma reachable_wf c : LRUCache.reachable c → wf c.
Proof.
  intros (size & ops & rs & Hrun).
  by apply (run_wf _ _ _ _ (wf_new size)) in Hrun as [? _].
Qed.

(** On every state a sequence of calls leaves, the list is no longer
    than the configured capacity. *)
Lemma reachable_size_le_max_size c :
  LRUCache.reachable c → (LRUCache.size c ≤ LRUCache.max_size c)%N.
Proof. by intros [_ ?]%reachable_wf. Qed.

Lemma wf_consistent c : wf c → consistent c.
Proof.
  intros Hwf. pose proof Hwf as [Hl _]. split_and!.
  - apply set_eq. intros k. rewrite elem_of_dom, elem_of_list_to_set.
    rewrite <- is_cached_entries by done. by rewrite is_cached_true.
  - apply Hl.
  - intros k it Hm.
    destruct (linked_locate _ _ _ _ Hl Hm)
      as (n & v & ns1 & ns2 & -> & Hns & Hn).
    exists v. unfold LRUCache.deref, StdList.deref.
    by rewrite Hns, node_at_app.
Qed.

(** A sequence of calls runs as its first part, then its second part
    from the state the first part leaves. *)
Lemma run_app ops1 ops2 c :
  LRUCache.run (ops1 ++ ops2) c =
  '(rs1, c1) ← LRUCache.run ops1 c;
  '(rs2, c2) ← LRUCache.run ops2 c1;
  mret (rs1 ++ rs2, c2).
Proof.
  revert c. induction ops1 as [|o ops1 IH]; intros c; simpl.
  - by destruct (LRUCache.run ops2 c) as [[??]|].
  - destruct (LRUCache.step o c) as [[r c1]|]; [simpl|done].
    rewrite IH. destruct (LRUCache.run ops1 c1) as [[rs1 c2]|]; [simpl|done].
    by destruct (LRUCache.run ops2 c2) as [[??]|].
Qed.

(** Under the invariant a cache of capacity 0 is empty, and [put] finds it
    full. *)
Lemma put_at_capacity_zero c k v :
  wf c → LRUCache.max_size c = 0%N → LRUCache.put k v c = Undefined.
Proof.
  intros [Hl Hsz] H0.
  assert (StdList.nodes (LRUCache.container c) = []) as Hns.
  { unfold LRUCache.size, StdList.size in Hsz. rewrite H0 in Hsz.
    destruct (StdList.nodes (LRUCache.container c)); [done|].
    simpl in Hsz. lia. }
  apply put_new_nothing_to_evict; [|done..].
  apply (linked_lookup_None _ _ _ Hl). unfold StdList.elements.
  rewrite Hns. apply not_elem_of_nil.
Qed.

End runs.

(** ** New keys, in terms of the entries *)

Section new_keys.
Context `{Countable K} {V : Type}.
Implicit Types (c : LRUCache.cache K V) (k : K) (v : V)
  (kvs : list (K * V)).

Lemma take_app_take {A} (n : nat) (l1 l2 : list A) :
  take n (l1 ++ take n l2) = take n (l1 ++ l2).
Proof. rewrite !take_app, take_take. do 2 f_equal. lia. Qed.

Lemma size_entries c :
  LRUCache.size c = N.of_nat (length (LRUCache.entries c)).
Proof.
  unfold LRUCache.size, StdList.size, LRUCache.entries, StdList.elements.
  by rewrite length_fmap.
Qed.

Lemma back_entries c es e :
  LRUCache.entries c = es ++ [e] → LRUCache.back c = Done e.
Proof.
  unfold LRUCache.entries, StdList.elements, LRUCache.back. intros Hes.
  destruct (StdList.nodes (LRUCache.container c)) as [|[n x] ns _] eqn:Hns
    using rev_ind.
  - by destruct es.
  - rewrite fmap_app in Hes. apply app_inj_tail in Hes as [_ Hx].
    simpl in Hx. subst x. by apply (back_snoc _ ns n).
Qed.

(** [put] of a new key keeps the newest [max_size] entries. *)
Lemma put_new_entries c k v :
  wf c → LRUCache.lookupMap c !! k = None → (0 < LRUCache.max_size c)%N →
  ∃ c', LRUCache.put k v c = Done c' ∧ wf c' ∧
    LRUCache.max_size c' = LRUCache.max_size c ∧
    LRUCache.entries c' =
      take (N.to_nat (LRUCache.max_size c)) ((k, v) :: LRUCache.entries c) ∧
    LRUCache.bounce_count c' =
      (if (LRUCache.size c =? LRUCache.max_size c)%N
       then incr (LRUCache.bounce_count c) else LRUCache.bounce_count c) ∧
    LRUCache.cache_hits c' = LRUCache.cache_hits c ∧
    LRUCache.cache_misses c' = LRUCache.cache_misses c ∧
    LRUCache.update_count c' = LRUCache.update_count c.
Proof.
  intros Hwf Hm Hpos.
  destruct (decide (LRUCache.size c = LRUCache.max_size c)) as [Heq|Hne].
  - destruct (put_new_full c k v Hwf Hm Heq Hpos)
      as (ns & n & ko & vo & Hns & Hput & Hwf').
    eexists. split; [exact Hput|]. split; [exact Hwf'|].
    apply N.eqb_eq in Heq as Heqb. rewrite Heqb. split_and!; try done.
    unfold LRUCache.entries, StdList.elements. simpl.
    rewrite <- Heq. unfold LRUCache.size, StdList.size.
    rewrite Nat2N.id, Hns, fmap_app, length_app. simpl.
    rewrite Nat.add_1_r. simpl. f_equal.
    by rewrite take_app_length' by (by rewrite length_fmap).
  - destruct (put_new_room c k v Hwf Hm Hne) as [Hput Hwf'].
    eexists. split; [exact Hput|]. split; [exact Hwf'|].
    apply N.eqb_neq in Hne as Hneb. rewrite Hneb. split_and!; try done.
    unfold LRUCache.entries, StdList.elements. simpl.
    destruct Hwf as [_ Hsz]. rewrite take_ge; [done|].
    unfold LRUCache.size, StdList.size in *. simpl.
    rewrite length_fmap. lia.
Qed.

(** A run of [put] calls on keys that are new and distinct. *)
Lemma run_puts_new kvs c :
  wf c → (0 < LRUCache.max_size c)%N → NoDup kvs.*1 →
  (∀ k, k ∈ kvs.*1 → LRUCache.lookupMap c !! k = None) →
  ∃ rs c1, LRUCache.run (puts kvs) c = Done (rs, c1) ∧ wf c1 ∧
    LRUCache.max_size c1 = LRUCache.max_size c ∧
    LRUCache.entries c1 =
      take (N.to_nat (LRUCache.max_size c)) (reverse kvs ++ LRUCache.entries c).
Proof.
  revert c. induction kvs as [|[k v] kvs IH]; intros c Hwf Hpos Hnd Hnew.
  - exists [], c. split_and!; try done. simpl.
    destruct Hwf as [_ Hsz]. rewrite size_entries in Hsz.
    rewrite take_ge; [done|]. unfold LRUCache.max_size in *. lia.
  - rewrite fmap_cons in Hnd. apply NoDup_cons in Hnd as [Hk Hnd].
    destruct (put_new_entries c k v Hwf) as (c' & Hput & Hwf' & Hmax & Hes & _);
      [apply Hnew; left|done|].
    destruct (IH c') as (rs & c1 & Hrun & Hwf1 & Hmax1 & Hes1);
      [done|by rewrite Hmax|done| |].
    { intros k2 Hk2. apply (linked_lookup_None _ _ _ (proj1 Hwf')).
      fold (LRUCache.entries c'). rewrite Hes. intros Hin.
      apply list_elem_of_fmap in Hin as (kv & -> & Hin).
      apply subseteq_take in Hin. apply elem_of_cons in Hin as [->|Hin].
      - by destruct Hk.
      - assert (LRUCache.lookupMap c !! kv.1 = None) as Hnone
          by (apply Hnew; by right).
        apply (linked_lookup_None _ _ _ (proj1 Hwf)) in Hnone.
        destruct Hnone. apply list_elem_of_fmap. by exists kv. }
    exists (Void :: rs), c1. split_and!; [|done|congruence|].
    + apply (run_cons_Done _ _ _ _ c'); [|done]. simpl. by rewrite Hput.
    + rewrite Hes1, Hes, Hmax, take_app_take, reverse_cons.
      by rewrite <- app_assoc.
Qed.

End new_keys.

(** * The specification's claims *)

Section claims.
Context `{Countable K} {V : Type}.
Implicit Types (c : LRUCache.cache K V) (k : K) (v : V).

(** Below the largest [unsigned long long], [++] adds one. *)
Lemma incr_no_wrap (n : counter) :
  (n < 2 ^ 64 - 1)%N → incr n = (n + 1)%N.
Proof. intros Hn. unfold incr. apply N.mod_small. lia. Qed.

(** C1: in a cache of capacity N >= 1, after [put] of N distinct keys that
    were not cached, exactly those keys are cached and the first of them
    is at the back of the list; [put] of one more key that is not cached
    then removes exactly that entry, from the list and from the index,
    adds one to the bounce counter and keeps every other entry: the
    index then holds the new key and the other N - 1 keys, and agrees
    with the list before and after. *)
Theorem put_beyond_capacity_evicts_lru
    c k0 v0 (rest : list (K * V)) k' v' :
  LRUCache.reachable c →
  N.of_nat (length ((k0, v0) :: rest)) = LRUCache.max_size c →
  NoDup (((k0, v0) :: rest).*1 ++ [k']) →
  (∀ k, k ∈ ((k0, v0) :: rest).*1 → LRUCache.is_cached k c = false) →
  ∃ rs c1 c2,
    LRUCache.run (puts ((k0, v0) :: rest)) c = Done (rs, c1) ∧
    LRUCache.entries c1 = reverse rest ++ [(k0, v0)] ∧
    LRUCache.back c1 = Done (k0, v0) ∧
    LRUCache.is_cached k' c1 = false ∧
    LRUCache.put k' v' c1 = Done c2 ∧
    LRUCache.entries c2 = (k', v') :: reverse rest ∧
    (k0 ∉ (LRUCache.entries c2).*1) ∧
    LRUCache.is_cached k0 c2 = false ∧
    (∀ k, k ≠ k0 → LRUCache.is_cached k c1 = true →
          LRUCache.is_cached k c2 = true) ∧
    LRUCache.bounce_count c2 = incr (LRUCache.bounce_count c1) ∧
    LRUCache.size c2 = LRUCache.max_size c2 ∧
    (∀ k, LRUCache.is_cached k c1 = true ↔ k ∈ ((k0, v0) :: rest).*1) ∧
    LRUCache.is_cached k0 c1 = true ∧
    (∀ k, LRUCache.is_cached k c2 = true ↔ k = k' ∨ k ∈ rest.*1) ∧
    LRUCache.is_cached k' c2 = true ∧
    consistent c1 ∧
    consistent c2.
Proof.
  intros Hwf%reachable_wf Hlen Hnd Hnew.
  set (kvs := (k0, v0) :: rest) in *.
  assert (N.to_nat (LRUCache.max_size c) = length kvs) as Hcap by lia.
  apply NoDup_app in Hnd as (Hnd & Hk' & _).
  destruct (run_puts_new kvs c) as (rs & c1 & Hrun & Hwf1 & Hmax1 & Hes1);
    [done|unfold kvs in Hlen; simpl in Hlen; lia|done| |].
  { intros k Hk. by apply is_cached_false, Hnew. }
  rewrite Hcap, take_app_length' in Hes1 by (by rewrite length_reverse).
  subst kvs. rewrite reverse_cons in Hes1.
  assert (LRUCache.size c1 = LRUCache.max_size c1) as Hfull.
  { rewrite size_entries, Hes1, Hmax1, <- Hlen, length_app, length_reverse.
    simpl. lia. }
  assert ((k0 ∉ rest.*1) ∧ k0 ≠ k' ∧ (k' ∉ rest.*1)) as (Hk0 & Hne & Hk'r).
  { rewrite fmap_cons in Hnd, Hk'. apply NoDup_cons in Hnd as [Hk0 _].
    split_and!; [done| |].
    - intros <-. apply (Hk' k0); left.
    - intros Hin. apply (Hk' k'); [by right|left]. }
  assert (LRUCache.lookupMap c1 !! k' = None) as Hm'.
  { apply (linked_lookup_None _ _ _ (proj1 Hwf1)).
    fold (LRUCache.entries c1).
    rewrite Hes1, fmap_app, fmap_reverse, elem_of_app, elem_of_reverse.
    simpl. rewrite list_elem_of_singleton. intros [?|?]; [done|congruence]. }
  destruct (put_new_entries c1 k' v' Hwf1 Hm')
    as (c2 & Hput & Hwf2 & Hmax2 & Hes2 & Hb & _);
    [rewrite Hmax1, <- Hlen; simpl; lia|].
  apply N.eqb_eq in Hfull as Hfullb. rewrite Hfullb in Hb.
  rewrite Hmax1, Hcap, Hes1 in Hes2. simpl in Hes2.
  rewrite take_app_length' in Hes2 by (by rewrite length_reverse).
  assert (k0 ∉ (LRUCache.entries c2).*1) as Hgone.
  { rewrite Hes2, fmap_cons, fmap_reverse, not_elem_of_cons, elem_of_reverse.
    by split. }
  assert (∀ k, LRUCache.is_cached k c1 = true ↔ k ∈ ((k0, v0) :: rest).*1)
    as Hidx1.
  { intros k. rewrite (is_cached_entries _ _ Hwf1), Hes1.
    rewrite fmap_app, fmap_reverse, elem_of_app, elem_of_reverse, fmap_cons.
    simpl. rewrite list_elem_of_singleton, elem_of_cons. tauto. }
  assert (∀ k, LRUCache.is_cached k c2 = true ↔ k = k' ∨ k ∈ rest.*1)
    as Hidx2.
  { intros k. rewrite (is_cached_entries _ _ Hwf2), Hes2.
    by rewrite fmap_cons, fmap_reverse, elem_of_cons, elem_of_reverse. }
  pose proof (wf_consistent _ Hwf1) as Hcons1.
  pose proof (wf_consistent _ Hwf2) as Hcons2.
  exists rs, c1, c2.
  repeat match goal with |- _ ∧ _ => split end; try done.
  - by apply (back_entries _ (reverse rest)).
  - by apply is_cached_false.
  - destruct (LRUCache.is_cached k0 c2) eqn:Hc; [|done].
    by apply is_cached_entries in Hc.
  - intros k Hk Hc. apply is_cached_entries in Hc; [|done].
    apply is_cached_entries; [done|].
    rewrite Hes1, fmap_app, elem_of_app in Hc. simpl in Hc.
    rewrite list_elem_of_singleton in Hc. destruct Hc as [Hc|Hc]; [|done].
    rewrite Hes2, fmap_cons. by right.
  - rewrite size_entries, Hes2, Hmax2, Hmax1, <- Hlen. simpl.
    rewrite length_reverse. lia.
  - apply Hidx1. left.
  - apply Hidx2. by left.
Qed.

(** C2: the list is meant never to be longer than the capacity, capacity
    0 included.  On a new cache of capacity 0 the first [put] finds
    [size() == max_size()], both 0, and asks the empty list for its back
    entry: the call has no defined result, so there is no state in which
    the bound could hold. *)
Theorem put_on_new_cache_of_capacity_zero k v :
  LRUCache.run [Put k v] (LRUCache.LRUCache 0%N) = Undefined.
Proof.
  simpl. by rewrite put_new_nothing_to_evict.
Qed.

(** C3: the index and the recency list are meant to agree after each
    call of every sequence of calls.  On a cache of capacity 0 no sequence
    of calls with a [put] in it leaves a state: whatever was called
    before, that [put] finds the empty cache full and calls [back()] and
    [pop_back()] on the empty list, so there is no index and no list left
    to agree. *)
Theorem put_in_a_run_with_capacity_zero
    (ops1 : list (call K V)) k v (ops2 : list (call K V)) :
  LRUCache.run (ops1 ++ Put k v :: ops2) (LRUCache.LRUCache 0%N) = Undefined.
Proof.
  rewrite run_app.
  destruct (LRUCache.run ops1 (LRUCache.LRUCache 0%N)) as [[rs1 c1]|] eqn:Hrun;
    [simpl|done].
  apply (run_wf _ _ _ _ (wf_new 0%N)) in Hrun as [Hwf Hmax].
  by rewrite (put_at_capacity_zero c1 k v Hwf Hmax).
Qed.

(** X18: with a capacity of at least 1 every sequence of calls leaves a
    state; and whatever the capacity, the state a sequence of calls leaves
    has the same keys in the index as in the recency list, no key twice in
    the list, and every locator of the index on the entry of its key. *)
Theorem index_and_list_stay_consistent
    (size : size_type) (ops : list (call K V)) :
  ((0 < size)%N →
   ∃ rs c, LRUCache.run ops (LRUCache.LRUCache size) = Done (rs, c)) ∧
  (∀ rs c, LRUCache.run ops (LRUCache.LRUCache size) = Done (rs, c) →
           consistent c).
Proof.
  split.
  - intros Hpos. by apply run_defined; [apply wf_new|].
  - intros rs c Hrun. apply wf_consistent.
    by apply (run_wf _ _ _ _ (wf_new size)) in Hrun as [? _].
Qed.

(** C4: [get] of a cached key adds one to the hit counter, moves the
    entry of the key to the front with its value as it was, points the
    index at the moved entry and returns an iterator to it; [front()] is
    then that entry.  Nothing else changes. *)
Theorem get_cached_key_promotes c k :
  LRUCache.reachable c → LRUCache.is_cached k c = true →
  ∃ v es1 es2 it c',
    LRUCache.entries c = es1 ++ (k, v) :: es2 ∧
    LRUCache.get k c = Done (it, c') ∧
    LRUCache.cache_hits c' = incr (LRUCache.cache_hits c) ∧
    LRUCache.entries c' = (k, v) :: es1 ++ es2 ∧
    LRUCache.lookupMap c' !! k = Some it ∧
    it = LRUCache.begin c' ∧
    LRUCache.deref it c' = Done (k, v) ∧
    LRUCache.front c' = Done (k, v) ∧
    (∀ k', k' ≠ k →
           LRUCache.lookupMap c' !! k' = LRUCache.lookupMap c !! k') ∧
    LRUCache.size c' = LRUCache.size c ∧
    LRUCache.max_size c' = LRUCache.max_size c ∧
    LRUCache.cache_misses c' = LRUCache.cache_misses c ∧
    LRUCache.update_count c' = LRUCache.update_count c ∧
    LRUCache.bounce_count c' = LRUCache.bounce_count c.
Proof.
  intros Hwf%reachable_wf [it0 Hm]%is_cached_true.
  destruct (get_hit c k it0 Hwf Hm)
    as (n & v & ns1 & ns2 & _ & Hns & Hget & _).
  eexists v, ns1.*2, ns2.*2, _, _.
  split; [|split; [exact Hget|]].
  { unfold LRUCache.entries, StdList.elements. by rewrite Hns, fmap_app. }
  unfold LRUCache.entries, StdList.elements, LRUCache.deref, LRUCache.front,
    LRUCache.size, StdList.size. simpl.
  split_and!; try done.
  - by rewrite fmap_app.
  - by rewrite lookup_insert_eq.
  - by rewrite decide_True.
  - intros k' Hk'. by rewrite lookup_insert_ne.
  - rewrite Hns, !length_app. simpl. f_equal. lia.
Qed.

(** C5: [get] of a key that is not cached adds one to the miss counter
    and returns [end()]; the list, the index, the size, the capacity and
    the other three counters stay as they are. *)
Theorem get_absent_key_counts_miss c k :
  LRUCache.is_cached k c = false →
  ∃ c',
    LRUCache.get k c = Done (LRUCache.end_ c, c') ∧
    LRUCache.cache_misses c' = incr (LRUCache.cache_misses c) ∧
    LRUCache.container c' = LRUCache.container c ∧
    LRUCache.lookupMap c' = LRUCache.lookupMap c ∧
    LRUCache.entries c' = LRUCache.entries c ∧
    LRUCache.size c' = LRUCache.size c ∧
    LRUCache.max_size c' = LRUCache.max_size c ∧
    LRUCache.cache_hits c' = LRUCache.cache_hits c ∧
    LRUCache.update_count c' = LRUCache.update_count c ∧
    LRUCache.bounce_count c' = LRUCache.bounce_count c.
Proof.
  intros Hm%is_cached_false. exists (LRUCache.incr_cache_misses c).
  split; [by apply get_miss|]. by split_and!.
Qed.

(** C6: [put] on a cached key adds one to the update counter, takes the
    old entry of the key out and puts the new (key, value) at the front;
    nothing is evicted: the size and the bounce counter stay as they are
    and the same keys are cached as before. *)
Theorem put_cached_key_updates c k v :
  LRUCache.reachable c → LRUCache.is_cached k c = true →
  ∃ v0 es1 es2 c',
    LRUCache.entries c = es1 ++ (k, v0) :: es2 ∧
    LRUCache.put k v c = Done c' ∧
    LRUCache.update_count c' = incr (LRUCache.update_count c) ∧
    LRUCache.entries c' = (k, v) :: es1 ++ es2 ∧
    LRUCache.front c' = Done (k, v) ∧
    LRUCache.size c' = LRUCache.size c ∧
    LRUCache.bounce_count c' = LRUCache.bounce_count c ∧
    (∀ k', LRUCache.is_cached k' c' = LRUCache.is_cached k' c) ∧
    LRUCache.max_size c' = LRUCache.max_size c ∧
    LRUCache.cache_hits c' = LRUCache.cache_hits c ∧
    LRUCache.cache_misses c' = LRUCache.cache_misses c.
Proof.
  intros Hwf%reachable_wf [it0 Hm]%is_cached_true.
  destruct (put_update c k v it0 Hwf Hm)
    as (n & v0 & ns1 & ns2 & _ & Hns & Hput & _).
  eexists v0, ns1.*2, ns2.*2, _.
  split; [|split; [exact Hput|]].
  { unfold LRUCache.entries, StdList.elements. by rewrite Hns, fmap_app. }
  unfold LRUCache.entries, StdList.elements, LRUCache.front,
    LRUCache.size, StdList.size, LRUCache.is_cached. simpl.
  split_and!; try done.
  - by rewrite fmap_app.
  - rewrite Hns, !length_app. simpl. f_equal. lia.
  - intros k'. destruct (decide (k = k')) as [<-|Hne].
    + by rewrite lookup_insert_eq, Hm.
    + by rewrite lookup_insert_ne.
Qed.

(** C7: [peek] and [is_cached] leave the object as it is: list (so front,
    back and the iteration order), index, size, capacity and the four
    counters.  Dropping such calls from a sequence of calls does not
    change the state the sequence leaves. *)
Theorem peek_and_is_cached_change_nothing c k :
  LRUCache.step (Peek k) c = Done (Iter (LRUCache.peek k c), c) ∧
  LRUCache.step (IsCached k) c = Done (Bool (LRUCache.is_cached k c), c) ∧
  ∀ ops, snd <$> LRUCache.run ops c =
         snd <$> LRUCache.run (filter mutating ops) c.
Proof.
  split_and!; [done..|]. intros ops. revert c.
  induction ops as [|o ops IH]; intros c; [done|].
  destruct o as [k1|k1|k1 v1|k1|]; rewrite ?filter_cons_True by done;
    rewrite ?filter_cons_False by (by intros ?); simpl.
  - destruct (LRUCache.get k1 c) as [[it c1]|]; [simpl|done].
    specialize (IH c1).
    by destruct (LRUCache.run ops c1) as [[??]|],
      (LRUCache.run (filter mutating ops) c1) as [[??]|].
  - rewrite <- IH. by destruct (LRUCache.run ops c) as [[??]|].
  - destruct (LRUCache.put k1 v1 c) as [c1|]; [simpl|done].
    specialize (IH c1).
    by destruct (LRUCache.run ops c1) as [[??]|],
      (LRUCache.run (filter mutating ops) c1) as [[??]|].
  - rewrite <- IH. by destruct (LRUCache.run ops c) as [[??]|].
  - specialize (IH (LRUCache.clear c)).
    by destruct (LRUCache.run ops (LRUCache.clear c)) as [[??]|],
      (LRUCache.run (filter mutating ops) (LRUCache.clear c)) as [[??]|].
Qed.

(** C8: a cache of capacity 0 is meant to retain nothing: after [put] it
    should hold no entry.  In the code such a cache is always empty and
    always counts as full, so [put] asks the empty list for its back
    entry and pops it before it inserts: the call has no defined result,
    and no state with [size() == 0] comes out of it. *)
Theorem put_with_capacity_zero_is_undefined c k v :
  LRUCache.reachable c → LRUCache.max_size c = 0%N →
  LRUCache.put k v c = Undefined.
Proof.
  intros Hwf%reachable_wf H0. pose proof Hwf as [Hl Hsz].
  assert (StdList.nodes (LRUCache.container c) = []) as Hns.
  { unfold LRUCache.size, StdList.size in Hsz. rewrite H0 in Hsz.
    destruct (StdList.nodes (LRUCache.container c)); [done|].
    simpl in Hsz. lia. }
  apply put_new_nothing_to_evict; [|done..].
  apply (linked_lookup_None _ _ _ Hl). unfold StdList.elements.
  rewrite Hns. apply not_elem_of_nil.
Qed.

(** C9: after [clear()] the cache is empty, no key is cached, and the
    capacity and the four counters are what they were. *)
Theorem clear_empties_and_keeps_counters c :
  LRUCache.size (LRUCache.clear c) = 0%N ∧
  LRUCache.empty (LRUCache.clear c) = true ∧
  LRUCache.entries (LRUCache.clear c) = [] ∧
  (∀ k, LRUCache.is_cached k (LRUCache.clear c) = false) ∧
  LRUCache.max_size (LRUCache.clear c) = LRUCache.max_size c ∧
  LRUCache.cache_hits (LRUCache.clear c) = LRUCache.cache_hits c ∧
  LRUCache.cache_misses (LRUCache.clear c) = LRUCache.cache_misses c ∧
  LRUCache.update_count (LRUCache.clear c) = LRUCache.update_count c ∧
  LRUCache.bounce_count (LRUCache.clear c) = LRUCache.bounce_count c.
Proof.
  by split_and!.
Qed.

(** The variant without counters does, call by call, what the variant
    with counters does. *)
Lemma get_strip c k :
  EulerZero.get k (strip c) =
  prod_map id strip <$> LRUCache.get k c.
Proof.
  unfold EulerZero.get, LRUCache.get. simpl.
  destruct (LRUCache.lookupMap c !! k) as [it|]; [simpl|done].
  destruct (StdList.deref it (LRUCache.container c)); [simpl|done].
  by destruct (StdList.erase it (LRUCache.container c)).
Qed.

Lemma put_strip c k v :
  EulerZero.put k v (strip c) = strip <$> LRUCache.put k v c.
Proof.
  unfold EulerZero.put, LRUCache.put. simpl.
  destruct (LRUCache.lookupMap c !! k) as [it|]; simpl.
  - by destruct (StdList.erase it (LRUCache.container c)).
  - unfold EulerZero.size, EulerZero.max_size, LRUCache.size,
      LRUCache.max_size. simpl.
    destruct (StdList.size (LRUCache.container c) =? LRUCache.max_size_ c)%N;
      [simpl|done].
    destruct (StdList.back (LRUCache.container c)); [simpl|done].
    by destruct (StdList.pop_back (LRUCache.container c)).
Qed.

Lemma step_strip c (o : call K V) :
  EulerZero.step o (strip c) =
  prod_map id strip <$> LRUCache.step o c.
Proof.
  destruct o as [k|k|k v|k|]; simpl; try done.
  - rewrite get_strip. by destruct (LRUCache.get k c) as [[??]|].
  - rewrite put_strip. by destruct (LRUCache.put k v c).
Qed.

Lemma run_strip (ops : list (call K V)) c :
  EulerZero.run ops (strip c) =
  prod_map id strip <$> LRUCache.run ops c.
Proof.
  revert c. induction ops as [|o ops IH]; intros c; [done|]. simpl.
  rewrite step_strip.
  destruct (LRUCache.step o c) as [[r c1]|]; [simpl|done].
  rewrite IH. by destruct (LRUCache.run ops c1) as [[??]|].
Qed.

(** C10: for every capacity and every sequence of calls, the class of
    [src/unnamed/part_000] and the class of [src/LRUCache.h] are defined
    on the same calls, give the same replies, and end with the same list
    and the same index: the state of the first is the state of the second
    without its counters. *)
Theorem counters_do_not_change_behaviour
    (size : size_type) (ops : list (call K V)) :
  EulerZero.run ops (EulerZero.LRUCache size) =
  prod_map id strip <$> LRUCache.run ops (LRUCache.LRUCache size).
Proof. apply (run_strip ops (LRUCache.LRUCache size)). Qed.

End claims.

(** ** The claims at work on a cache of numbers *)

Lemma sample_reachable (size : size_type) (ops : list (call nat nat)) :
  LRUCache.run ops (LRUCache.LRUCache size) =
    Done (replies_after size ops, state_after size ops) →
  LRUCache.reachable (state_after size ops).
Proof. intros Hrun. by exists size, ops, (replies_after size ops). Qed.

Lemma put_beyond_capacity_evicts_lru_witness :
  LRUCache.reachable (state_after 2%N sample_calls) ∧
  ∃ c2,
    LRUCache.put 3 30
      (state_after 2%N (sample_calls ++ puts [(1, 10); (2, 20)])) = Done c2 ∧
    LRUCache.entries c2 = [(3, 30); (2, 20)] ∧
    LRUCache.is_cached 1 c2 = false ∧
    LRUCache.is_cached 1
      (state_after 2%N (sample_calls ++ puts [(1, 10); (2, 20)])) = true ∧
    LRUCache.is_cached 3 c2 = true.
Proof.
  assert (LRUCache.reachable (state_after 2%N sample_calls)) as Hreach
    by (apply sample_reachable; vm_compute; reflexivity).
  split; [exact Hreach|].
  destruct (put_beyond_capacity_evicts_lru
              (state_after 2%N sample_calls) 1 10 [(2, 20)] 3 30)
    as (rs & c1 & c2 & Hrun & _ & _ & _ & Hput & Hes & _ & Hc & _ & _ & _ &
        _ & Hwas & _ & Hnew & _).
  - exact Hreach.
  - vm_compute; reflexivity.
  - decide_by_computation.
  - apply Forall_forall. decide_by_computation.
  - assert (c1 = state_after 2%N (sample_calls ++ puts [(1, 10); (2, 20)]))
      as <- by (vm_compute in Hrun; by inversion Hrun).
    exists c2. split_and!; [exact Hput|exact Hes|exact Hc|exact Hwas|exact Hnew].
Defined.

Lemma index_and_list_stay_consistent_witness :
  (∃ rs c,
     LRUCache.run sample_calls (LRUCache.LRUCache 2%N) = Done (rs, c)) ∧
  consistent (state_after 2%N sample_calls).
Proof.
  destruct (index_and_list_stay_consistent 2%N sample_calls)
    as [Hdefined Hconsistent].
  split; [apply Hdefined; lia|].
  apply (Hconsistent (replies_after 2%N sample_calls)).
  vm_compute; reflexivity.
Defined.

Lemma get_cached_key_promotes_witness :
  LRUCache.is_cached 1 (state_after 2%N two_entries) = true ∧
  ∃ it c',
    LRUCache.get 1 (state_after 2%N two_entries) = Done (it, c') ∧
    LRUCache.entries c' = [(1, 10); (2, 20)] ∧
    LRUCache.front c' = Done (1, 10) ∧
    LRUCache.cache_hits c' = 1%N.
Proof.
  split; [vm_compute; reflexivity|].
  destruct (get_cached_key_promotes (state_after 2%N two_entries) 1)
    as (v & es1 & es2 & it & c' & Hes & Hget & Hhits & Hes' & _ & _ & _ &
        Hfront & _).
  - apply sample_reachable. vm_compute; reflexivity.
  - vm_compute; reflexivity.
  - exists it, c'. vm_compute in Hget. inversion Hget; subst it c'.
    split_and!; vm_compute; reflexivity.
Defined.

Lemma get_absent_key_counts_miss_witness :
  LRUCache.is_cached 5 (state_after 2%N sample_calls) = false ∧
  ∃ c',
    LRUCache.get 5 (state_after 2%N sample_calls) =
      Done (StdList.PastTheEnd, c') ∧
    LRUCache.cache_misses c' = 2%N ∧
    LRUCache.entries c' = [(9, 91)].
Proof.
  split; [vm_compute; reflexivity|].
  destruct (get_absent_key_counts_miss (state_after 2%N sample_calls) 5)
    as (c' & Hget & Hmiss & _ & _ & Hes & _).
  - vm_compute; reflexivity.
  - exists c'. split_and!; [exact Hget| |].
    + rewrite Hmiss. vm_compute; reflexivity.
    + rewrite Hes. vm_compute; reflexivity.
Defined.

Lemma put_cached_key_updates_witness :
  LRUCache.is_cached 1 (state_after 2%N two_entries) = true ∧
  ∃ c',
    LRUCache.put 1 11 (state_after 2%N two_entries) = Done c' ∧
    LRUCache.size c' = 2%N ∧
    LRUCache.bounce_count c' = 0%N ∧
    LRUCache.is_cached 2 c' = true.
Proof.
  split; [vm_compute; reflexivity|].
  destruct (put_cached_key_updates (state_after 2%N two_entries) 1 11)
    as (v0 & es1 & es2 & c' & _ & Hput & _ & _ & _ & Hsz & Hb & Hc & _).
  - apply sample_reachable. vm_compute; reflexivity.
  - vm_compute; reflexivity.
  - exists c'. split_and!; [exact Hput| | |].
    + rewrite Hsz. vm_compute; reflexivity.
    + rewrite Hb. vm_compute; reflexivity.
    + rewrite Hc. vm_compute; reflexivity.
Defined.

Lemma put_with_capacity_zero_is_undefined_witness :
  LRUCache.max_size (state_after 0%N lookups_only) = 0%N ∧
  LRUCache.put 1 10 (state_after 0%N lookups_only) = Undefined.
Proof.
  split; [vm_compute; reflexivity|].
  apply put_with_capacity_zero_is_undefined.
  - apply sample_reachable. vm_compute; reflexivity.
  - vm_compute; reflexivity.
Defined.


(** * More properties of the code *)

(** ** Nodes and their identities *)

Section node_identities.
Context {T : Type}.
Implicit Types (n m : StdList.node_id) (x : T)
  (ns : list (StdList.node_id * T)).

Lemma node_at_None m ns : m ∉ ns.*1 → StdList.node_at m ns = None.
Proof.
  induction ns as [|[n x] ns IH]; intros Hm; [done|]. simpl.
  rewrite fmap_cons, not_elem_of_cons in Hm. destruct Hm as [Hne Hm].
  simpl in Hne. rewrite decide_False by done. by apply IH.
Qed.

Lemma node_at_app_ne m ns1 n x ns2 :
  m ≠ n →
  StdList.node_at m (ns1 ++ (n, x) :: ns2) = StdList.node_at m (ns1 ++ ns2).
Proof.
  intros Hne. induction ns1 as [|[n1 x1] ns1 IH]; simpl.
  - by rewrite decide_False.
  - by rewrite IH.
Qed.

Lemma node_at_elem n x ns :
  NoDup ns.*1 → (n, x) ∈ ns → StdList.node_at n ns = Some x.
Proof.
  intros Hnd Hin.
  destruct (elem_of_nodes_split n x ns Hnd Hin) as (ns1 & ns2 & -> & Hn).
  by apply node_at_app.
Qed.

Lemma node_at_Some_elem n x ns : StdList.node_at n ns = Some x → (n, x) ∈ ns.
Proof.
  induction ns as [|[m y] ns IH]; [done|]. simpl.
  destruct (decide (m = n)) as [->|Hne].
  - intros [= ->]. left.
  - intros Hat. right. by apply IH.
Qed.

End node_identities.

Section more_properties.
Context `{Countable K} {V : Type}.
Implicit Types (c : LRUCache.cache K V) (k : K) (v : V)
  (ops : list (call K V)).

Lemma run_length ops c rs c' :
  LRUCache.run ops c = Done (rs, c') → length rs = length ops.
Proof.
  revert c rs. induction ops as [|o ops IH]; intros c rs Hrun; simpl in Hrun.
  - by inversion Hrun.
  - destruct (LRUCache.step o c) as [[r c1]|]; [simpl in Hrun|done].
    destruct (LRUCache.run ops c1) as [[rs1 c2]|] eqn:Hrun1; [|done].
    inversion Hrun; subst. simpl. f_equal. by apply (IH c1).
Qed.

(** X1: on a cache constructed with a capacity of at least 1, every
    sequence of calls runs without undefined behaviour and answers every
    call; the state it leaves still has the capacity given to the
    constructor and at most that many entries. *)
Theorem runs_are_defined_and_bounded (size : size_type) ops :
  (0 < size)%N →
  ∃ rs c,
    LRUCache.run ops (LRUCache.LRUCache size) = Done (rs, c) ∧
    length rs = length ops ∧
    LRUCache.max_size c = size ∧
    (LRUCache.size c ≤ size)%N.
Proof.
  intros Hpos.
  destruct (run_defined ops (LRUCache.LRUCache size) (wf_new size) Hpos)
    as (rs & c & Hrun).
  exists rs, c. split; [done|]. split; [by apply run_length in Hrun|].
  apply (run_wf _ _ _ _ (wf_new size)) in Hrun as [[_ Hsz] Hmax].
  split; [done|]. by rewrite Hmax in Hsz.
Qed.

(** X2: on every state a cache can be in, [is_cached(key)] is true exactly
    when [peek(key)] is not [end()], as the comment in [is_cached] says. *)
Theorem is_cached_iff_peek_not_end c k :
  LRUCache.reachable c →
  LRUCache.is_cached k c = true ↔ LRUCache.peek k c ≠ LRUCache.end_ c.
Proof.
  intros [Hl _]%reachable_wf. rewrite is_cached_true. unfold LRUCache.peek.
  destruct (LRUCache.lookupMap c !! k) as [it|] eqn:Hm.
  - split; [intros _|by eauto].
    by apply (linked_index _ _ Hl) in Hm as (n & v & -> & _).
  - split; [by intros [??]|done].
Qed.

(** X3: [peek] of a cached key returns an iterator to the entry of that
    key, an entry of the list; [peek] of any other key returns [end()],
    which must not be dereferenced. *)
Theorem peek_finds_the_entry c k :
  LRUCache.reachable c →
  if LRUCache.is_cached k c
  then ∃ v, LRUCache.deref (LRUCache.peek k c) c = Done (k, v) ∧
            (k, v) ∈ LRUCache.entries c
  else LRUCache.peek k c = LRUCache.end_ c ∧
       LRUCache.deref (LRUCache.peek k c) c = Undefined.
Proof.
  intros [Hl _]%reachable_wf.
  destruct (LRUCache.is_cached k c) eqn:Hc.
  - apply is_cached_true in Hc as [it Hm]. unfold LRUCache.peek. rewrite Hm.
    destruct (linked_locate _ _ _ _ Hl Hm)
      as (n & v & ns1 & ns2 & -> & Hns & Hn).
    exists v. unfold LRUCache.deref, StdList.deref, LRUCache.entries,
      StdList.elements.
    rewrite Hns, node_at_app by done. split; [done|].
    rewrite fmap_app, fmap_cons, elem_of_app. right. left.
  - apply is_cached_false in Hc. unfold LRUCache.peek. by rewrite Hc.
Qed.

(** After [put] the new entry is the first node of the list. *)
Lemma put_front c k v :
  wf c → (0 < LRUCache.max_size c)%N →
  ∃ c1 ns,
    LRUCache.put k v c = Done c1 ∧ wf c1 ∧
    StdList.nodes (LRUCache.container c1) =
      (StdList.fresh (LRUCache.container c), (k, v)) :: ns.
Proof.
  intros Hwf Hpos. destruct (LRUCache.lookupMap c !! k) as [it|] eqn:Hm.
  - destruct (put_update c k v it Hwf Hm)
      as (n & v0 & ns1 & ns2 & _ & _ & Hput & Hwf').
    eexists _, _. split; [exact Hput|]. split; [exact Hwf'|]. reflexivity.
  - destruct (decide (LRUCache.size c = LRUCache.max_size c)) as [Heq|Hne].
    + destruct (put_new_full c k v Hwf Hm Heq Hpos)
        as (ns & n & ko & vo & _ & Hput & Hwf').
      eexists _, _. split; [exact Hput|]. split; [exact Hwf'|]. reflexivity.
    + destruct (put_new_room c k v Hwf Hm Hne) as [Hput Hwf'].
      eexists _, _. split; [exact Hput|]. split; [exact Hwf'|]. reflexivity.
Qed.

(** [get] of the key whose entry is already first. *)
Lemma get_front c n k v ns :
  wf c → StdList.nodes (LRUCache.container c) = (n, (k, v)) :: ns →
  let f := StdList.fresh (LRUCache.container c) in
  LRUCache.lookupMap c !! k = Some (StdList.Node n) ∧
  LRUCache.get k c =
    Done (StdList.Node f,
          LRUCache.mk (LRUCache.max_size_ c)
            (StdList.mk ((f, (k, v)) :: ns) (S f))
            (<[k := StdList.Node f]> (LRUCache.lookupMap c))
            (incr (LRUCache.cache_hits_ c)) (LRUCache.cache_misses_ c)
            (LRUCache.update_count_ c) (LRUCache.bounce_count_ c)).
Proof.
  intros [Hl _] Hns. simpl.
  assert (LRUCache.lookupMap c !! k = Some (StdList.Node n)) as Hm.
  { apply (linked_index _ _ Hl). exists n, v. split; [done|].
    rewrite Hns. left. }
  split; [done|]. unfold LRUCache.get. rewrite Hm. simpl.
  unfold StdList.deref, StdList.erase. rewrite Hns. simpl.
  repeat (rewrite decide_True by done; simpl). reflexivity.
Qed.

(** X4: on a cache that can hold an entry, what [put] stores is what
    [peek] and [get] give back: after [put(key, value)] the key is cached,
    the entry (key, value) is at the front, [peek(key)] and [get(key)]
    return iterators to it, and that [get] leaves the order as it is. *)
Theorem put_then_get_returns_the_value c k v :
  LRUCache.reachable c → (0 < LRUCache.max_size c)%N →
  ∃ c1 it c2,
    LRUCache.put k v c = Done c1 ∧
    LRUCache.is_cached k c1 = true ∧
    LRUCache.front c1 = Done (k, v) ∧
    LRUCache.deref (LRUCache.peek k c1) c1 = Done (k, v) ∧
    LRUCache.get k c1 = Done (it, c2) ∧
    LRUCache.deref it c2 = Done (k, v) ∧
    LRUCache.entries c2 = LRUCache.entries c1.
Proof.
  intros Hwf%reachable_wf Hpos.
  destruct (put_front c k v Hwf Hpos) as (c1 & ns & Hput & Hwf1 & Hns).
  destruct (get_front c1 _ k v ns Hwf1 Hns) as [Hm Hget].
  eexists c1, _, _. split; [done|].
  split; [by apply is_cached_true; eauto|].
  split; [by unfold LRUCache.front, StdList.front; rewrite Hns|].
  split.
  { unfold LRUCache.peek, LRUCache.deref, StdList.deref.
    rewrite Hm, Hns. simpl. by rewrite decide_True. }
  split; [exact Hget|].
  unfold LRUCache.deref, StdList.deref, LRUCache.entries, StdList.elements.
  simpl. rewrite decide_True by done. by rewrite Hns.
Qed.

(** X5: [get] is defined on every state a cache can be in and neither
    adds, drops nor changes an entry: the entries after it are the entries
    before it in some order, the same keys are cached and the size is the
    same.  It returns [end()] exactly when the key was not cached. *)
Theorem get_keeps_the_entries c k :
  LRUCache.reachable c →
  ∃ it c',
    LRUCache.get k c = Done (it, c') ∧
    LRUCache.entries c' ≡ₚ LRUCache.entries c ∧
    (∀ k', LRUCache.is_cached k' c' = LRUCache.is_cached k' c) ∧
    LRUCache.size c' = LRUCache.size c ∧
    (it = LRUCache.end_ c' ↔ LRUCache.is_cached k c = false).
Proof.
  intros Hwf%reachable_wf.
  destruct (LRUCache.lookupMap c !! k) as [it0|] eqn:Hm.
  - destruct (get_hit c k it0 Hwf Hm)
      as (n & v & ns1 & ns2 & _ & Hns & Hget & _).
    eexists _, _. split; [exact Hget|].
    unfold LRUCache.entries, StdList.elements, LRUCache.size, StdList.size,
      LRUCache.is_cached. simpl. split_and!.
    + rewrite Hns, !fmap_app, fmap_cons. apply Permutation_middle.
    + intros k'. destruct (decide (k = k')) as [<-|Hne].
      * by rewrite lookup_insert_eq, Hm.
      * by rewrite lookup_insert_ne.
    + rewrite Hns, !length_app. simpl. f_equal. lia.
    + rewrite Hm. split; [done|].
      intros Hf. apply bool_decide_eq_false in Hf. by destruct Hf.
  - eexists _, _. split; [by apply get_miss|]. split_and!; try done.
    split; [intros _|done]. by apply is_cached_false.
Qed.

(** The identity of an unlinked node names no node of the list that is
    left, nor the node linked next. *)
Lemma unlinked_node_is_gone (l : StdList.t (K * V)) m ns1 n k v0 ns2 x :
  linked l m → StdList.nodes l = ns1 ++ (n, (k, v0)) :: ns2 →
  n ≠ StdList.fresh l ∧
  StdList.node_at n ((StdList.fresh l, x) :: ns1 ++ ns2) = None.
Proof.
  intros Hl Hns. pose proof (linked_ids _ _ Hl) as Hids.
  rewrite Hns, fmap_app, fmap_cons in Hids. simpl in Hids.
  apply NoDup_app in Hids as (_ & Hi12 & Hi2).
  apply NoDup_cons in Hi2 as [Hn2 _].
  assert (n < StdList.fresh l) as Hlt.
  { apply (linked_fresh _ _ Hl). rewrite Hns, fmap_app, fmap_cons.
    apply elem_of_app. right. left. }
  split; [lia|]. apply node_at_None.
  rewrite fmap_cons, fmap_app, not_elem_of_cons, elem_of_app. simpl.
  split; [lia|]. intros [Hin|Hin]; [|done]. apply (Hi12 _ Hin). left.
Qed.

(** The node of another key is found as before when one node is unlinked
    and a new one is linked at the front. *)
Lemma other_node_is_kept (l : StdList.t (K * V)) m k2 it2 ns1 n k v0 ns2 x fr :
  linked l m → m !! k2 = Some it2 → k2 ≠ k →
  StdList.nodes l = ns1 ++ (n, (k, v0)) :: ns2 →
  StdList.deref it2 (StdList.mk ((StdList.fresh l, x) :: ns1 ++ ns2) fr) =
  StdList.deref it2 l.
Proof.
  intros Hl Hm Hne Hns.
  apply (linked_index _ _ Hl) in Hm as (n2 & v2 & -> & Hin).
  pose proof (node_at_elem _ _ _ (linked_ids _ _ Hl) Hin) as Hat2.
  assert (n2 < StdList.fresh l) as Hlt.
  { apply (linked_fresh _ _ Hl), list_elem_of_fmap. by exists (n2, (k2, v2)). }
  assert (n2 ≠ n) as Hn.
  { intros ->. assert ((n, (k, v0)) ∈ StdList.nodes l) as Hin'
      by (rewrite Hns, elem_of_app; right; left).
    pose proof (node_at_elem _ _ _ (linked_ids _ _ Hl) Hin') as Hat.
    congruence. }
  unfold StdList.deref. simpl. rewrite decide_False by lia.
  by rewrite Hns, node_at_app_ne.
Qed.

Lemma node_is_kept_on_push (l : StdList.t (K * V)) m k2 it2 x fr :
  linked l m → m !! k2 = Some it2 →
  StdList.deref it2 (StdList.mk ((StdList.fresh l, x) :: StdList.nodes l) fr) =
  StdList.deref it2 l.
Proof.
  intros Hl Hm.
  apply (linked_index _ _ Hl) in Hm as (n2 & v2 & -> & Hin).
  assert (n2 < StdList.fresh l) as Hlt.
  { apply (linked_fresh _ _ Hl), list_elem_of_fmap. by exists (n2, (k2, v2)). }
  unfold StdList.deref. simpl. by rewrite decide_False by lia.
Qed.

(** X6: [get] and [put] on a cached key do not move its node: they erase
    it and link a new one.  The erase invalidates an iterator to the entry
    taken before, as [peek] returns it: dereferencing that iterator after
    the call is undefined. *)
Theorem promotion_invalidates_the_old_iterator c k :
  LRUCache.reachable c → LRUCache.is_cached k c = true →
  (∃ it c',
     LRUCache.get k c = Done (it, c') ∧
     LRUCache.deref (LRUCache.peek k c) c' = Undefined) ∧
  (∀ v, ∃ c',
     LRUCache.put k v c = Done c' ∧
     LRUCache.deref (LRUCache.peek k c) c' = Undefined).
Proof.
  intros Hwf%reachable_wf [it0 Hm]%is_cached_true. pose proof Hwf as [Hl _].
  assert (LRUCache.peek k c = it0) as Hpeek
    by (unfold LRUCache.peek; by rewrite Hm).
  rewrite !Hpeek. split.
  - destruct (get_hit c k it0 Hwf Hm)
      as (n & v & ns1 & ns2 & -> & Hns & Hget & _).
    destruct (unlinked_node_is_gone _ _ _ _ _ _ _ (k, v) Hl Hns) as [_ Hat].
    eexists _, _. split; [exact Hget|].
    unfold LRUCache.deref, StdList.deref.
    cbn [LRUCache.container StdList.nodes]. by rewrite Hat.
  - intros v. destruct (put_update c k v it0 Hwf Hm)
      as (n & v0 & ns1 & ns2 & -> & Hns & Hput & _).
    destruct (unlinked_node_is_gone _ _ _ _ _ _ _ (k, v) Hl Hns) as [_ Hat].
    eexists. split; [exact Hput|].
    unfold LRUCache.deref, StdList.deref.
    cbn [LRUCache.container StdList.nodes]. by rewrite Hat.
Qed.

(** X7: [get] and [put] of one key leave the nodes of the other keys
    where they are: for another key that is still cached afterwards,
    [peek] returns the iterator it returned before, and the iterator is on
    the same entry. *)
Theorem other_iterators_stay_valid c k k2 :
  LRUCache.reachable c → k2 ≠ k →
  (∀ it c', LRUCache.get k c = Done (it, c') →
     LRUCache.peek k2 c' = LRUCache.peek k2 c ∧
     LRUCache.deref (LRUCache.peek k2 c) c' =
       LRUCache.deref (LRUCache.peek k2 c) c) ∧
  (∀ v c', LRUCache.put k v c = Done c' →
     LRUCache.is_cached k2 c' = true →
     LRUCache.peek k2 c' = LRUCache.peek k2 c ∧
     LRUCache.deref (LRUCache.peek k2 c) c' =
       LRUCache.deref (LRUCache.peek k2 c) c).
Proof.
  intros Hwf%reachable_wf Hne. pose proof Hwf as [Hl _]. split.
  - intros it c' Hget.
    destruct (LRUCache.lookupMap c !! k) as [it0|] eqn:Hm.
    + destruct (get_hit c k it0 Hwf Hm)
        as (n & v & ns1 & ns2 & _ & Hns & Hget' & _).
      rewrite Hget' in Hget. inversion Hget; subst it c'; clear Hget.
      unfold LRUCache.peek, LRUCache.deref.
      cbn [LRUCache.container LRUCache.lookupMap].
      rewrite lookup_insert_ne by done. split; [done|].
      destruct (LRUCache.lookupMap c !! k2) as [it2|] eqn:Hm2; [|done].
      by eapply other_node_is_kept; [exact Hl|exact Hm2|exact Hne|exact Hns].
    + rewrite get_miss in Hget by done. by inversion Hget; subst.
  - intros v c' Hput Hc2.
    destruct (LRUCache.lookupMap c !! k) as [it0|] eqn:Hm.
    + destruct (put_update c k v it0 Hwf Hm)
        as (n & v0 & ns1 & ns2 & _ & Hns & Hput' & _).
      rewrite Hput' in Hput. inversion Hput; subst c'; clear Hput.
      unfold LRUCache.peek, LRUCache.deref.
      cbn [LRUCache.container LRUCache.lookupMap].
      rewrite lookup_insert_ne by done. split; [done|].
      destruct (LRUCache.lookupMap c !! k2) as [it2|] eqn:Hm2; [|done].
      by eapply other_node_is_kept; [exact Hl|exact Hm2|exact Hne|exact Hns].
    + destruct (decide (LRUCache.size c = LRUCache.max_size c)) as [Heq|Hsz].
      * destruct (put_defined_or_zero c k v Hwf)
          as [(c1 & _ & _ & Hmax1)|[Hund _]]; [|congruence].
        assert (LRUCache.max_size c ≠ 0%N) as Hpos.
        { intros H0. rewrite put_new_nothing_to_evict in Hput; [done..| |done].
          unfold LRUCache.size, StdList.size in Heq. rewrite H0 in Heq.
          destruct (StdList.nodes (LRUCache.container c)); [done|].
          simpl in Heq. lia. }
        destruct (put_new_full c k v Hwf Hm Heq)
          as (ns & n & ko & vo & Hns & Hput' & _); [lia|].
        rewrite Hput' in Hput. inversion Hput; subst c'; clear Hput.
        apply is_cached_true in Hc2 as [it2 Hm2].
        cbn [LRUCache.lookupMap] in Hm2.
        rewrite lookup_insert_ne in Hm2 by done.
        apply lookup_delete_Some in Hm2 as [Hko Hm2].
        unfold LRUCache.peek, LRUCache.deref.
        cbn [LRUCache.container LRUCache.lookupMap].
        rewrite lookup_insert_ne, lookup_delete_ne by done.
        split; [done|]. rewrite Hm2.
        rewrite <- (app_nil_r ns).
        by eapply other_node_is_kept;
          [exact Hl|exact Hm2|exact (not_eq_sym Hko)|exact Hns].
      * destruct (put_new_room c k v Hwf Hm Hsz) as [Hput' _].
        rewrite Hput' in Hput. inversion Hput; subst c'; clear Hput.
        unfold LRUCache.peek, LRUCache.deref.
        cbn [LRUCache.container LRUCache.lookupMap].
        rewrite lookup_insert_ne by done. split; [done|].
        destruct (LRUCache.lookupMap c !! k2) as [it2|] eqn:Hm2; [|done].
        by apply (node_is_kept_on_push _ _ k2 _ _ _ Hl Hm2).
Qed.

(** X8: [put] of a key that is not cached into a full cache removes the
    entry [back()] returns and nothing else: its key is no longer cached,
    every other entry keeps its place behind the new one, the new key is
    cached, the size stays and the bounce counter goes up by one. *)
Theorem put_on_full_cache_evicts_back c k v :
  LRUCache.reachable c → (0 < LRUCache.max_size c)%N →
  LRUCache.size c = LRUCache.max_size c →
  LRUCache.is_cached k c = false →
  ∃ ko vo es c',
    LRUCache.entries c = es ++ [(ko, vo)] ∧
    LRUCache.back c = Done (ko, vo) ∧
    LRUCache.put k v c = Done c' ∧
    LRUCache.entries c' = (k, v) :: es ∧
    LRUCache.is_cached ko c' = false ∧
    LRUCache.is_cached k c' = true ∧
    (∀ k', k' ≠ ko → k' ≠ k →
           LRUCache.is_cached k' c' = LRUCache.is_cached k' c) ∧
    LRUCache.size c' = LRUCache.size c ∧
    LRUCache.bounce_count c' = incr (LRUCache.bounce_count c) ∧
    LRUCache.update_count c' = LRUCache.update_count c ∧
    LRUCache.cache_hits c' = LRUCache.cache_hits c ∧
    LRUCache.cache_misses c' = LRUCache.cache_misses c.
Proof.
  intros Hwf%reachable_wf Hpos Hfull Hm%is_cached_false.
  destruct (put_new_full c k v Hwf Hm Hfull Hpos)
    as (ns & n & ko & vo & Hns & Hput & _).
  assert (ko ≠ k) as Hko.
  { intros ->. destruct Hwf as [Hl _].
    apply (linked_lookup_None _ _ _ Hl) in Hm. destruct Hm.
    unfold StdList.elements. rewrite Hns, !fmap_app, elem_of_app.
    right. left. }
  eexists ko, vo, ns.*2, _. split_and!; [| |exact Hput|..]; try done.
  - unfold LRUCache.entries, StdList.elements. by rewrite Hns, fmap_app.
  - by apply (back_snoc _ ns n).
  - apply is_cached_false. simpl.
    by rewrite lookup_insert_ne, lookup_delete_eq.
  - apply is_cached_true. simpl. rewrite lookup_insert_eq. eauto.
  - intros k' Hk1 Hk2. unfold LRUCache.is_cached. simpl.
    by rewrite lookup_insert_ne, lookup_delete_ne.
  - unfold LRUCache.size, StdList.size. simpl. rewrite Hns, length_app.
    simpl. f_equal. lia.
Qed.

(** X9: [put] of a key that is not cached into a cache that is not full
    evicts nothing: the new entry goes in front of the entries there were,
    the size goes up by one, and the counters stay as they are. *)
Theorem put_with_room_evicts_nothing c k v :
  LRUCache.reachable c →
  LRUCache.size c ≠ LRUCache.max_size c →
  LRUCache.is_cached k c = false →
  ∃ c',
    LRUCache.put k v c = Done c' ∧
    LRUCache.entries c' = (k, v) :: LRUCache.entries c ∧
    LRUCache.size c' = (LRUCache.size c + 1)%N ∧
    (∀ k', k' ≠ k → LRUCache.is_cached k' c' = LRUCache.is_cached k' c) ∧
    LRUCache.bounce_count c' = LRUCache.bounce_count c ∧
    LRUCache.update_count c' = LRUCache.update_count c ∧
    LRUCache.cache_hits c' = LRUCache.cache_hits c ∧
    LRUCache.cache_misses c' = LRUCache.cache_misses c.
Proof.
  intros Hwf%reachable_wf Hroom Hm%is_cached_false.
  destruct (put_new_room c k v Hwf Hm Hroom) as [Hput _].
  eexists. split; [exact Hput|]. split_and!; try done.
  - unfold LRUCache.size, StdList.size. simpl. lia.
  - intros k' Hk'. unfold LRUCache.is_cached. simpl.
    by rewrite lookup_insert_ne.
Qed.

(** ** Counters *)

Lemma calls_cons (kind : call K V → bool) o ops :
  calls kind (o :: ops) =
  ((if kind o then 1 else 0) + calls kind ops)%N.
Proof.
  unfold calls. destruct (kind o) eqn:Hk.
  - rewrite filter_cons_True by (by rewrite Hk). simpl. lia.
  - rewrite filter_cons_False by (rewrite Hk; by intros ?). lia.
Qed.

Lemma incr_add (a b : N) :
  ((incr a + b) mod 2 ^ 64 = (a + b + 1) mod 2 ^ 64)%N.
Proof.
  unfold incr. rewrite N.Div0.add_mod_idemp_l. f_equal. lia.
Qed.

Lemma mod_add_congr (a a' b : N) :
  (a mod 2 ^ 64 = a' mod 2 ^ 64 →
   (a + b) mod 2 ^ 64 = (a' + b) mod 2 ^ 64)%N.
Proof.
  intros Ha. rewrite <- (N.Div0.add_mod_idemp_l a), Ha.
  apply N.Div0.add_mod_idemp_l.
Qed.

Lemma get_counters c k it c' :
  LRUCache.get k c = Done (it, c') →
  ((LRUCache.cache_hits c' + LRUCache.cache_misses c') mod 2 ^ 64 =
   (LRUCache.cache_hits c + LRUCache.cache_misses c + 1) mod 2 ^ 64)%N ∧
  LRUCache.update_count c' = LRUCache.update_count c ∧
  LRUCache.bounce_count c' = LRUCache.bounce_count c.
Proof.
  unfold LRUCache.get.
  destruct (LRUCache.lookupMap c !! k) as [it0|]; simpl.
  - destruct (StdList.deref it0 (LRUCache.container c)); [simpl|done].
    destruct (StdList.erase it0 (LRUCache.container c)); [simpl|done].
    intros [= <- <-]. unfold LRUCache.cache_hits, LRUCache.cache_misses.
    simpl. split; [apply incr_add|done].
  - intros [= <- <-]. unfold LRUCache.cache_hits, LRUCache.cache_misses.
    simpl. split; [|done]. rewrite (N.add_comm _ (incr _)), incr_add.
    f_equal. lia.
Qed.

Lemma put_counters c k v c' :
  LRUCache.put k v c = Done c' →
  LRUCache.cache_hits c' = LRUCache.cache_hits c ∧
  LRUCache.cache_misses c' = LRUCache.cache_misses c.
Proof.
  unfold LRUCache.put.
  destruct (LRUCache.lookupMap c !! k) as [it0|]; simpl.
  - destruct (StdList.erase it0 (LRUCache.container c)); [simpl|done].
    by intros [= <-].
  - destruct (LRUCache.size c =? LRUCache.max_size c)%N; simpl.
    + destruct (StdList.back (LRUCache.container c)); [simpl|done].
      destruct (StdList.pop_back (LRUCache.container c)); [simpl|done].
      by intros [= <-].
    + by intros [= <-].
Qed.

(** X10: every [get] counts once, as a hit or as a miss, and no other call
    touches these two counters: over any sequence of calls, from any
    state, hits plus misses grow by the number of [get] calls (modulo
    2^64, the range of the counters). *)
Theorem hits_plus_misses_count_the_gets ops c rs c' :
  LRUCache.run ops c = Done (rs, c') →
  ((LRUCache.cache_hits c' + LRUCache.cache_misses c') mod 2 ^ 64 =
   (LRUCache.cache_hits c + LRUCache.cache_misses c + calls is_get ops)
     mod 2 ^ 64)%N.
Proof.
  revert c rs. induction ops as [|o ops IH]; intros c rs Hrun;
    simpl in Hrun.
  - inversion Hrun; subst. f_equal. unfold calls. simpl. lia.
  - destruct (LRUCache.step o c) as [[r c1]|] eqn:Hstep; [|done].
    simpl in Hrun.
    destruct (LRUCache.run ops c1) as [[rs1 c2]|] eqn:Hrun1; [|done].
    inversion Hrun; subst. rewrite (IH _ _ Hrun1), calls_cons.
    destruct o as [k|k|k v|k|]; simpl in Hstep; simpl.
    + destruct (LRUCache.get k c) as [[it c0]|] eqn:Hget; [|done].
      inversion Hstep; subst.
      destruct (get_counters _ _ _ _ Hget) as [Hhm _].
      rewrite (mod_add_congr _ _ _ Hhm). f_equal. lia.
    + by inversion Hstep; subst.
    + destruct (LRUCache.put k v c) as [c0|] eqn:Hput; [|done].
      inversion Hstep; subst.
      by destruct (put_counters _ _ _ _ Hput) as [-> ->].
    + by inversion Hstep; subst.
    + by inversion Hstep; subst.
Qed.

Lemma put_accounting c k v c' :
  wf c → LRUCache.put k v c = Done c' →
  ((LRUCache.update_count c' + LRUCache.bounce_count c' + LRUCache.size c')
     mod 2 ^ 64 =
   (LRUCache.update_count c + LRUCache.bounce_count c + LRUCache.size c + 1)
     mod 2 ^ 64)%N.
Proof.
  intros Hwf Hput.
  unfold LRUCache.update_count, LRUCache.bounce_count, LRUCache.size,
    StdList.size.
  destruct (LRUCache.lookupMap c !! k) as [it0|] eqn:Hm.
  - destruct (put_update c k v it0 Hwf Hm)
      as (n & v0 & ns1 & ns2 & _ & Hns & Hput' & _).
    rewrite Hput' in Hput. inversion Hput; subst c'; clear Hput. simpl.
    rewrite Hns, !length_app. simpl. rewrite <- !N.add_assoc, incr_add.
    f_equal. lia.
  - destruct (decide (LRUCache.size c = LRUCache.max_size c)) as [Heq|Hne].
    + destruct (decide (LRUCache.max_size c = 0%N)) as [H0|Hpos].
      { rewrite put_new_nothing_to_evict in Hput; [done..| |done].
        unfold LRUCache.size, StdList.size in Heq. rewrite H0 in Heq.
        destruct (StdList.nodes (LRUCache.container c)); [done|].
        simpl in Heq. lia. }
      destruct (put_new_full c k v Hwf Hm Heq)
        as (ns & n & ko & vo & Hns & Hput' & _); [lia|].
      rewrite Hput' in Hput. inversion Hput; subst c'; clear Hput. simpl.
      rewrite Hns, length_app. simpl.
      rewrite (N.add_comm (LRUCache.update_count_ c)), <- !N.add_assoc,
        incr_add.
      f_equal. lia.
    + destruct (put_new_room c k v Hwf Hm Hne) as [Hput' _].
      rewrite Hput' in Hput. inversion Hput; subst c'; clear Hput. simpl.
      f_equal. lia.
Qed.

Lemma get_accounting c k it c' :
  wf c → LRUCache.get k c = Done (it, c') →
  LRUCache.size c' = LRUCache.size c.
Proof.
  intros Hwf Hget. destruct (LRUCache.lookupMap c !! k) as [it0|] eqn:Hm.
  - destruct (get_hit c k it0 Hwf Hm)
      as (n & v & ns1 & ns2 & _ & Hns & Hget' & _).
    rewrite Hget' in Hget. inversion Hget; subst it c'; clear Hget.
    unfold LRUCache.size, StdList.size. simpl.
    rewrite Hns, !length_app. simpl. f_equal. lia.
  - rewrite get_miss in Hget by done. by inversion Hget; subst.
Qed.

Lemma run_accounting ops c rs c' :
  wf c → Forall (λ o, o ≠ Clear) ops →
  LRUCache.run ops c = Done (rs, c') →
  ((LRUCache.update_count c' + LRUCache.bounce_count c' + LRUCache.size c')
     mod 2 ^ 64 =
   (LRUCache.update_count c + LRUCache.bounce_count c + LRUCache.size c
    + calls is_put ops) mod 2 ^ 64)%N.
Proof.
  revert c rs. induction ops as [|o ops IH]; intros c rs Hwf Hnc Hrun;
    simpl in Hrun.
  - inversion Hrun; subst. f_equal. unfold calls. simpl. lia.
  - apply Forall_cons in Hnc as [Ho Hnc].
    destruct (LRUCache.step o c) as [[r c1]|] eqn:Hstep; [|done].
    simpl in Hrun.
    destruct (LRUCache.run ops c1) as [[rs1 c2]|] eqn:Hrun1; [|done].
    inversion Hrun; subst.
    destruct (step_wf _ _ _ _ Hwf Hstep) as [Hwf1 _].
    rewrite (IH _ _ Hwf1 Hnc Hrun1), calls_cons.
    destruct o as [k|k|k v|k|]; simpl in Hstep; simpl.
    + destruct (LRUCache.get k c) as [[it c0]|] eqn:Hget; [|done].
      inversion Hstep; subst.
      destruct (get_counters _ _ _ _ Hget) as (_ & -> & ->).
      by rewrite (get_accounting _ _ _ _ Hwf Hget).
    + by inversion Hstep; subst.
    + destruct (LRUCache.put k v c) as [c0|] eqn:Hput; [|done].
      inversion Hstep; subst.
      rewrite (mod_add_congr _ _ _ (put_accounting _ _ _ _ Hwf Hput)).
      f_equal. lia.
    + by inversion Hstep; subst.
    + done.
Qed.

(** X11: as long as [clear] is not called, every [put] is accounted for:
    it updates an entry, or evicts one, or makes the cache one entry
    larger.  After any such sequence of calls on a new cache, the update
    counter, the bounce counter and the size add up to the number of
    [put] calls (modulo 2^64). *)
Theorem puts_are_updates_bounces_or_growth (size : size_type) ops rs c :
  Forall (λ o, o ≠ Clear) ops →
  LRUCache.run ops (LRUCache.LRUCache size) = Done (rs, c) →
  ((LRUCache.update_count c + LRUCache.bounce_count c + LRUCache.size c)
     mod 2 ^ 64 =
   calls is_put ops mod 2 ^ 64)%N.
Proof.
  intros Hnc Hrun.
  by rewrite (run_accounting _ _ _ _ (wf_new size) Hnc Hrun).
Qed.

(** ** The variant without counters *)

(** X12: the class of [src/unnamed/part_000] keeps the same invariants.
    With a capacity of at least 1 every sequence of calls is defined; and
    every state a sequence of calls leaves has the capacity given to the
    constructor, at most that many entries, the keys of the list as the
    keys of the index, no key twice, and every iterator of the index on
    the entry of its key. *)
Theorem euler_zero_keeps_the_invariants (size : size_type) ops :
  ((0 < size)%N →
   ∃ rs (e : EulerZero.cache K V),
     EulerZero.run ops (EulerZero.LRUCache size) = Done (rs, e)) ∧
  (∀ rs (e : EulerZero.cache K V),
     EulerZero.run ops (EulerZero.LRUCache size) = Done (rs, e) →
     EulerZero.max_size e = size ∧
     (EulerZero.size e ≤ size)%N ∧
     dom (EulerZero.lookupMap e) =@{gset K}
       list_to_set (StdList.elements (EulerZero.container e)).*1 ∧
     NoDup (StdList.elements (EulerZero.container e)).*1 ∧
     ∀ k it, EulerZero.lookupMap e !! k = Some it →
             ∃ v, StdList.deref it (EulerZero.container e) = Done (k, v)).
Proof.
  pose proof (run_strip ops (LRUCache.LRUCache size)) as Hsim.
  change (strip (LRUCache.LRUCache size))
    with (EulerZero.LRUCache (K:=K) (V:=V) size) in Hsim.
  split.
  - intros Hpos.
    destruct (run_defined ops (LRUCache.LRUCache size) (wf_new size) Hpos)
      as (rs & c & Hrun).
    rewrite Hrun in Hsim. by eexists _, _.
  - intros rs e Hrun. rewrite Hrun in Hsim.
    destruct (LRUCache.run ops (LRUCache.LRUCache size))
      as [[rs0 c0]|] eqn:Hrun0; [|done].
    inversion Hsim; subst rs e; clear Hsim.
    apply (run_wf _ _ _ _ (wf_new size)) in Hrun0 as [Hwf Hmax].
    destruct (wf_consistent c0 Hwf) as (Hdom & Hnd & Hloc).
    destruct Hwf as [_ Hsz]. rewrite Hmax in Hsz.
    by split_and!.
Qed.

(** ** The ends of the list *)

(** X13: [get] of the key that is already at the front leaves the order
    of the entries as it is and returns an iterator to the same entry;
    of the counters only the hit counter changes, and size, capacity and
    the cached keys stay as they are. *)
Theorem get_of_front_key_keeps_order c k v :
  LRUCache.reachable c → LRUCache.front c = Done (k, v) →
  ∃ it c',
    LRUCache.get k c = Done (it, c') ∧
    LRUCache.deref it c' = Done (k, v) ∧
    LRUCache.entries c' = LRUCache.entries c ∧
    LRUCache.front c' = Done (k, v) ∧
    LRUCache.cache_hits c' = incr (LRUCache.cache_hits c) ∧
    LRUCache.cache_misses c' = LRUCache.cache_misses c ∧
    LRUCache.update_count c' = LRUCache.update_count c ∧
    LRUCache.bounce_count c' = LRUCache.bounce_count c ∧
    LRUCache.size c' = LRUCache.size c ∧
    LRUCache.max_size c' = LRUCache.max_size c ∧
    (∀ k', LRUCache.is_cached k' c' = LRUCache.is_cached k' c).
Proof.
  intros Hwf%reachable_wf Hfront.
  unfold LRUCache.front, StdList.front in Hfront.
  destruct (StdList.nodes (LRUCache.container c)) as [|[n [k1 v1]] ns]
    eqn:Hns; [done|].
  inversion Hfront; subst k1 v1; clear Hfront.
  destruct (get_front c n k v ns Hwf Hns) as [Hm Hget].
  eexists _, _. split; [exact Hget|].
  unfold LRUCache.deref, StdList.deref, LRUCache.entries, StdList.elements,
    LRUCache.front, StdList.front, LRUCache.size, StdList.size,
    LRUCache.is_cached.
  simpl. rewrite decide_True by done. rewrite Hns.
  split_and!; try done. intros k'. destruct (decide (k = k')) as [<-|Hne].
  - by rewrite lookup_insert_eq, Hm.
  - by rewrite lookup_insert_ne.
Qed.

(** X15: on a cache that is not empty, [front()] is the first and
    [back()] the last entry of the iteration from [begin()] to [end()];
    both keys are cached, [begin()] is an iterator to the front entry, and
    it is the iterator [peek] returns for the front key.  A cache is empty
    exactly when no key is cached. *)
Theorem front_and_back_are_cached_entries c :
  LRUCache.reachable c →
  (LRUCache.empty c = true ↔ ∀ k, LRUCache.is_cached k c = false) ∧
  (LRUCache.empty c = false →
   ∃ kf vf kb vb,
     LRUCache.front c = Done (kf, vf) ∧
     LRUCache.back c = Done (kb, vb) ∧
     head (LRUCache.entries c) = Some (kf, vf) ∧
     last (LRUCache.entries c) = Some (kb, vb) ∧
     LRUCache.deref (LRUCache.begin c) c = Done (kf, vf) ∧
     LRUCache.peek kf c = LRUCache.begin c ∧
     LRUCache.is_cached kf c = true ∧
     LRUCache.is_cached kb c = true).
Proof.
  intros Hwf%reachable_wf. split.
  - unfold LRUCache.empty, StdList.empty. split.
    + intros He k. destruct (LRUCache.is_cached k c) eqn:Hc; [|done].
      apply (is_cached_entries _ _ Hwf) in Hc.
      unfold LRUCache.entries, StdList.elements in Hc.
      destruct (StdList.nodes (LRUCache.container c)); [|done].
      by apply elem_of_nil in Hc.
    + intros Hnone.
      destruct (StdList.nodes (LRUCache.container c)) as [|[n [k v]] ns]
        eqn:Hns; [done|].
      destruct (get_front c n k v ns Hwf Hns) as [Hm _].
      specialize (Hnone k). apply is_cached_false in Hnone. congruence.
  - intros He. unfold LRUCache.empty, StdList.empty in He.
    destruct (StdList.nodes (LRUCache.container c)) as [|[n [kf vf]] ns]
      eqn:Hns; [done|].
    destruct (last_snoc_inv ((n, (kf, vf)) :: ns)) as (ns' & nb & [kb vb] & Hb);
      [done|].
    rewrite Hb in Hns.
    destruct (get_front c n kf vf ns Hwf) as [Hm _]; [by rewrite Hns, Hb|].
    exists kf, vf, kb, vb.
    unfold LRUCache.front, StdList.front, LRUCache.back, LRUCache.entries,
      StdList.elements, LRUCache.deref, LRUCache.begin, StdList.begin,
      StdList.deref, LRUCache.peek.
    rewrite (back_snoc _ ns' nb (kb, vb)) by done.
    rewrite Hm, Hns, fmap_last, last_snoc, <- Hb. simpl.
    rewrite decide_True by done. split_and!; try done.
    + apply is_cached_true. eauto.
    + apply (is_cached_entries _ _ Hwf).
      unfold LRUCache.entries, StdList.elements.
      rewrite Hns, !fmap_app, elem_of_app. right. left.
Qed.

(** ** The recency order as a move-to-front list *)

Lemma filter_other_keys_absent k (es : list (K * V)) :
  k ∉ es.*1 → filter (λ e, e.1 ≠ k) es = es.
Proof.
  induction es as [|e es IH]; intros Hk; [done|].
  rewrite fmap_cons, not_elem_of_cons in Hk. destruct Hk as [Hne Hk].
  rewrite filter_cons_True by done. by rewrite IH.
Qed.

Lemma filter_other_keys_present k v (es1 es2 : list (K * V)) :
  NoDup (es1 ++ (k, v) :: es2).*1 →
  filter (λ e, e.1 ≠ k) (es1 ++ (k, v) :: es2) = es1 ++ es2.
Proof.
  rewrite fmap_app, fmap_cons. simpl. intros Hnd.
  apply NoDup_app in Hnd as (_ & H12 & [Hk2 _]%NoDup_cons).
  rewrite filter_app, filter_cons_False by (simpl; by intros ?).
  rewrite !filter_other_keys_absent; [done..|].
  intros Hin. apply (H12 _ Hin). left.
Qed.

(** X16: on a cache that can hold an entry, [put] treats the list as a
    move-to-front list cut off at the capacity: the entries after
    [put(key, value)] are (key, value) followed by the earlier entries of
    the other keys in their order, as many as fit. *)
Theorem put_moves_to_front_and_truncates c k v :
  LRUCache.reachable c → (0 < LRUCache.max_size c)%N →
  ∃ c',
    LRUCache.put k v c = Done c' ∧
    LRUCache.entries c' =
      take (N.to_nat (LRUCache.max_size c))
           ((k, v) :: filter (λ e, e.1 ≠ k) (LRUCache.entries c)).
Proof.
  intros Hwf%reachable_wf Hpos.
  destruct (LRUCache.lookupMap c !! k) as [it0|] eqn:Hm.
  - destruct (put_update c k v it0 Hwf Hm)
      as (n & v0 & ns1 & ns2 & _ & Hns & Hput & _).
    eexists. split; [exact Hput|].
    destruct Hwf as [Hl Hsz]. pose proof (linked_keys _ _ Hl) as Hnd.
    unfold LRUCache.entries, StdList.elements in *. simpl.
    rewrite Hns, fmap_app, fmap_cons in Hnd. simpl in Hnd.
    rewrite Hns, !fmap_app, fmap_cons. simpl.
    rewrite (filter_other_keys_present k v0) by done.
    rewrite take_ge; [done|].
    unfold LRUCache.size, LRUCache.max_size, StdList.size in *.
    rewrite Hns, length_app in Hsz. simpl in *.
    rewrite length_app, !length_fmap. lia.
  - destruct (put_new_entries c k v Hwf Hm Hpos) as (c' & Hput & _ & _ & Hes & _).
    exists c'. split; [done|]. rewrite Hes, filter_other_keys_absent; [done|].
    destruct Hwf as [Hl _]. by apply (linked_lookup_None _ _ _ Hl).
Qed.

(** X17: [get] of a cached key moves its entry to the front and keeps the
    other entries in their order; [get] of any other key leaves the list
    as it is. *)
Theorem get_moves_to_front c k :
  LRUCache.reachable c →
  ∃ it c',
    LRUCache.get k c = Done (it, c') ∧
    (LRUCache.is_cached k c = false →
     LRUCache.entries c' = LRUCache.entries c) ∧
    (∀ v, (k, v) ∈ LRUCache.entries c →
          LRUCache.entries c' =
            (k, v) :: filter (λ e, e.1 ≠ k) (LRUCache.entries c)).
Proof.
  intros Hwf%reachable_wf. pose proof Hwf as [Hl _].
  destruct (LRUCache.lookupMap c !! k) as [it0|] eqn:Hm.
  - destruct (get_hit c k it0 Hwf Hm)
      as (n & v & ns1 & ns2 & _ & Hns & Hget & _).
    eexists _, _. split; [exact Hget|]. split.
    { intros Hc%is_cached_false. congruence. }
    pose proof (linked_keys _ _ Hl) as Hnd.
    unfold LRUCache.entries, StdList.elements in *. simpl.
    rewrite Hns, fmap_app, fmap_cons in Hnd. simpl in Hnd.
    rewrite Hns, !fmap_app, fmap_cons. simpl.
    intros v' Hin. rewrite (filter_other_keys_present k v) by done.
    f_equal. f_equal.
    rewrite fmap_app, fmap_cons in Hnd.
    apply NoDup_app in Hnd as (_ & H12 & [Hk2 _]%NoDup_cons).
    apply elem_of_app in Hin as [Hin|[Heq|Hin]%elem_of_cons].
    + destruct (H12 k); [|left]. apply list_elem_of_fmap. by exists (k, v').
    + by inversion Heq.
    + destruct Hk2. apply list_elem_of_fmap. by exists (k, v').
  - eexists _, _. split; [by apply get_miss|]. split; [done|].
    intros v Hin. apply (linked_lookup_None _ _ _ Hl) in Hm. destruct Hm.
    apply list_elem_of_fmap. by exists (k, v).
Qed.

End more_properties.

(** ** The further properties at work on a cache of numbers *)

Lemma two_entries_reachable : LRUCache.reachable (state_after 2%N two_entries).
Proof. apply sample_reachable. vm_compute; reflexivity. Qed.

Lemma sample_calls_reachable :
  LRUCache.reachable (state_after 2%N sample_calls).
Proof. apply sample_reachable. vm_compute; reflexivity. Qed.

Lemma runs_are_defined_and_bounded_witness :
  ∃ rs c,
    LRUCache.run sample_calls (LRUCache.LRUCache 2%N) = Done (rs, c) ∧
    length rs = length sample_calls ∧
    LRUCache.max_size c = 2%N ∧
    (LRUCache.size c ≤ 2)%N.
Proof. apply (runs_are_defined_and_bounded 2%N sample_calls). lia. Defined.

Lemma is_cached_iff_peek_not_end_witness :
  LRUCache.is_cached 1 (state_after 2%N two_entries) = true ↔
  LRUCache.peek 1 (state_after 2%N two_entries) ≠
    LRUCache.end_ (state_after 2%N two_entries).
Proof.
  apply is_cached_iff_peek_not_end. exact two_entries_reachable.
Defined.

Lemma peek_finds_the_entry_witness :
  ∃ v,
    LRUCache.deref (LRUCache.peek 1 (state_after 2%N two_entries))
      (state_after 2%N two_entries) = Done (1, v) ∧
    (1, v) ∈ LRUCache.entries (state_after 2%N two_entries).
Proof.
  pose proof (peek_finds_the_entry (state_after 2%N two_entries) 1
                two_entries_reachable) as Hpeek.
  assert (LRUCache.is_cached 1 (state_after 2%N two_entries) = true) as Hc
    by (vm_compute; reflexivity).
  rewrite Hc in Hpeek. exact Hpeek.
Defined.

Lemma put_then_get_returns_the_value_witness :
  ∃ c1 it c2,
    LRUCache.put 3 30 (state_after 2%N two_entries) = Done c1 ∧
    LRUCache.get 3 c1 = Done (it, c2) ∧
    LRUCache.deref it c2 = Done (3, 30).
Proof.
  destruct (put_then_get_returns_the_value (state_after 2%N two_entries) 3 30)
    as (c1 & it & c2 & Hput & _ & _ & _ & Hget & Hderef & _).
  - exact two_entries_reachable.
  - vm_compute; reflexivity.
  - by exists c1, it, c2.
Defined.

Lemma get_keeps_the_entries_witness :
  ∃ it c',
    LRUCache.get 1 (state_after 2%N two_entries) = Done (it, c') ∧
    LRUCache.entries c' ≡ₚ LRUCache.entries (state_after 2%N two_entries).
Proof.
  destruct (get_keeps_the_entries (state_after 2%N two_entries) 1)
    as (it & c' & Hget & Hperm & _).
  - exact two_entries_reachable.
  - by exists it, c'.
Defined.

Lemma promotion_invalidates_the_old_iterator_witness :
  ∃ it c',
    LRUCache.get 1 (state_after 2%N two_entries) = Done (it, c') ∧
    LRUCache.deref (LRUCache.peek 1 (state_after 2%N two_entries)) c' =
      Undefined.
Proof.
  destruct (promotion_invalidates_the_old_iterator
              (state_after 2%N two_entries) 1)
    as [(it & c' & Hget & Hstale) _].
  - exact two_entries_reachable.
  - vm_compute; reflexivity.
  - by exists it, c'.
Defined.

Lemma other_iterators_stay_valid_witness :
  LRUCache.peek 2 (state_after 2%N (two_entries ++ [Get 1])) =
    LRUCache.peek 2 (state_after 2%N two_entries) ∧
  LRUCache.deref (LRUCache.peek 2 (state_after 2%N two_entries))
    (state_after 2%N (two_entries ++ [Get 1])) =
  LRUCache.deref (LRUCache.peek 2 (state_after 2%N two_entries))
    (state_after 2%N two_entries).
Proof.
  destruct (other_iterators_stay_valid (state_after 2%N two_entries) 1 2)
    as [Hget _].
  - exact two_entries_reachable.
  - lia.
  - apply (Hget (StdList.Node 2)). vm_compute; reflexivity.
Defined.

Lemma put_on_full_cache_evicts_back_witness :
  ∃ ko vo c',
    LRUCache.back (state_after 2%N two_entries) = Done (ko, vo) ∧
    LRUCache.put 3 30 (state_after 2%N two_entries) = Done c' ∧
    LRUCache.is_cached ko c' = false.
Proof.
  destruct (put_on_full_cache_evicts_back (state_after 2%N two_entries) 3 30)
    as (ko & vo & es & c' & _ & Hback & Hput & _ & Hgone & _).
  - exact two_entries_reachable.
  - vm_compute; reflexivity.
  - vm_compute; reflexivity.
  - vm_compute; reflexivity.
  - by exists ko, vo, c'.
Defined.

Lemma put_with_room_evicts_nothing_witness :
  ∃ c',
    LRUCache.put 3 30 (state_after 2%N sample_calls) = Done c' ∧
    LRUCache.entries c' =
      (3, 30) :: LRUCache.entries (state_after 2%N sample_calls) ∧
    LRUCache.size c' = (LRUCache.size (state_after 2%N sample_calls) + 1)%N.
Proof.
  destruct (put_with_room_evicts_nothing (state_after 2%N sample_calls) 3 30)
    as (c' & Hput & Hes & Hsz & _).
  - exact sample_calls_reachable.
  - vm_compute. discriminate.
  - vm_compute; reflexivity.
  - by exists c'.
Defined.

Lemma hits_plus_misses_count_the_gets_witness :
  ((LRUCache.cache_hits (state_after 2%N sample_calls) +
    LRUCache.cache_misses (state_after 2%N sample_calls)) mod 2 ^ 64 =
   (LRUCache.cache_hits (LRUCache.LRUCache (K:=nat) (V:=nat) 2%N) +
    LRUCache.cache_misses (LRUCache.LRUCache (K:=nat) (V:=nat) 2%N) +
    calls is_get sample_calls) mod 2 ^ 64)%N.
Proof.
  apply (hits_plus_misses_count_the_gets sample_calls _
           (replies_after 2%N sample_calls)).
  vm_compute; reflexivity.
Defined.

Lemma puts_are_updates_bounces_or_growth_witness :
  ((LRUCache.update_count (state_after 2%N scenario) +
    LRUCache.bounce_count (state_after 2%N scenario) +
    LRUCache.size (state_after 2%N scenario)) mod 2 ^ 64 =
   calls is_put scenario mod 2 ^ 64)%N.
Proof.
  apply (puts_are_updates_bounces_or_growth 2%N scenario
           (replies_after 2%N scenario)).
  - unfold scenario.
    repeat (apply Forall_cons; split; [discriminate|]). by constructor.
  - vm_compute; reflexivity.
Defined.

Lemma euler_zero_keeps_the_invariants_witness :
  ∃ rs e,
    EulerZero.run sample_calls (EulerZero.LRUCache 2%N) = Done (rs, e) ∧
    EulerZero.max_size e = 2%N ∧
    (EulerZero.size e ≤ 2)%N.
Proof.
  destruct (euler_zero_keeps_the_invariants 2%N sample_calls)
    as [Hdefined Hinv].
  destruct Hdefined as (rs & e & Hrun); [lia|].
  destruct (Hinv rs e Hrun) as (Hmax & Hsz & _).
  by exists rs, e.
Defined.

Lemma get_of_front_key_keeps_order_witness :
  ∃ it c',
    LRUCache.get 2 (state_after 2%N two_entries) = Done (it, c') ∧
    LRUCache.entries c' = LRUCache.entries (state_after 2%N two_entries).
Proof.
  destruct (get_of_front_key_keeps_order (state_after 2%N two_entries) 2 20)
    as (it & c' & Hget & _ & Hes & _).
  - exact two_entries_reachable.
  - vm_compute; reflexivity.
  - by exists it, c'.
Defined.

Lemma front_and_back_are_cached_entries_witness :
  ∃ kf vf kb vb,
    LRUCache.front (state_after 2%N two_entries) = Done (kf, vf) ∧
    LRUCache.back (state_after 2%N two_entries) = Done (kb, vb) ∧
    LRUCache.is_cached kb (state_after 2%N two_entries) = true.
Proof.
  destruct (front_and_back_are_cached_entries (state_after 2%N two_entries))
    as [_ Hends].
  - exact two_entries_reachable.
  - destruct Hends as (kf & vf & kb & vb & Hf & Hb & _ & _ & _ & _ & _ & Hc).
    + vm_compute; reflexivity.
    + by exists kf, vf, kb, vb.
Defined.

Lemma put_moves_to_front_and_truncates_witness :
  ∃ c',
    LRUCache.put 3 30 (state_after 2%N two_entries) = Done c' ∧
    LRUCache.entries c' =
      take 2 ((3, 30) :: filter (λ e, e.1 ≠ 3)
                           (LRUCache.entries (state_after 2%N two_entries))).
Proof.
  destruct (put_moves_to_front_and_truncates
              (state_after 2%N two_entries) 3 30) as (c' & Hput & Hes).
  - exact two_entries_reachable.
  - vm_compute; reflexivity.
  - by exists c'.
Defined.

Lemma get_moves_to_front_witness :
  ∃ it c',
    LRUCache.get 1 (state_after 2%N two_entries) = Done (it, c') ∧
    LRUCache.entries c' =
      (1, 10) :: filter (λ e, e.1 ≠ 1)
                   (LRUCache.entries (state_after 2%N two_entries)).
Proof.
  destruct (get_moves_to_front (state_after 2%N two_entries) 1)
    as (it & c' & Hget & _ & Hhit).
  - exact two_entries_reachable.
  - exists it, c'. split; [exact Hget|]. apply Hhit. decide_by_computation.
Defined.
